(** * WireViz harness: connection resolution and BOM aggregation

    A shallow embedding of [src/wireviz/wv_harness.py] (class [Harness]):
    [add_mate_pin], [add_mate_component], [populate_bom],
    [_add_to_internal_bom] with its inner [_add], and [connect].

    Python objects are modelled as records, dictionaries whose iteration
    order matters as association lists in insertion order, the BOM mapping
    ([defaultdict(dict)]) as a finite map, designator sets as finite sets,
    and raised exceptions as the left summand of a result type. *)

From Stdlib Require Import ZArith String DecimalString.
From stdpp Require Import base option list gmap strings fin_maps.

Local Open Scope string_scope.

(** ** Python values and exceptions *)

(** The values that pin and wire references, pin ids, labels and colors
    take: [None], an [int] or a [str].  [==] on them is structural. *)
Inductive pyval : Type :=
  | PNone
  | PInt (n : Z)
  | PStr (s : string).

#[global] Instance pyval_eq_dec : EqDecision pyval.
Proof. solve_decision. Defined.

(** [str(v)], as used by the f-strings of the error messages. *)
Definition py_str (v : pyval) : string :=
  match v with
  | PNone => "None"
  | PInt n => NilZero.string_of_int (Z.to_int n)
  | PStr s => s
  end.

(** The exceptions the modelled code can raise. *)
Inductive error : Type :=
  | Exception (msg : string)
  | KeyError (key : pyval)
  | IndexError
  | ValueError
  | AttributeError (attr : string).

#[global] Instance error_eq_dec : EqDecision error.
Proof. solve_decision. Defined.

(** A call either raises ([inl]) or returns ([inr]). *)
Definition Result : Type -> Type := sum error.

Definition ok {A} (x : A) : Result A := inr x.
Definition raise {A} (e : error) : Result A := inl e.

#[global] Instance Result_ret : MRet Result := @ok.
#[global] Instance Result_bind : MBind Result :=
  fun _ _ f m => match m with inl e => inl e | inr x => f x end.
#[global] Instance Result_fmap : FMap Result :=
  fun _ _ f m => match m with inl e => inl e | inr x => inr (f x) end.

(** The line feed of the f-string ["...:\n{item}"]. *)
Definition newline : string := String (Ascii.ascii_of_nat 10) "".

(** [for x in l: s = f(x, s)] where the body may raise. *)
Fixpoint for_each {A S} (f : A -> S -> Result S) (l : list A) (s : S)
  : Result S :=
  match l with
  | [] => ok s
  | x :: l' => s' ← f x s; for_each f l' s'
  end.

(** ** Python lists: [in], [index], [count] *)

Fixpoint py_in (x : pyval) (l : list pyval) : bool :=
  match l with
  | [] => false
  | y :: l' => if decide (y = x) then true else py_in x l'
  end.

(** [l.index(x)]: position of the first element equal to [x];
    [None] stands for the [ValueError] of an absent element. *)
Fixpoint py_index (x : pyval) (l : list pyval) : option nat :=
  match l with
  | [] => None
  | y :: l' => if decide (y = x) then Some 0%nat else S <$> py_index x l'
  end.

Fixpoint py_count (x : pyval) (l : list pyval) : nat :=
  match l with
  | [] => 0
  | y :: l' => (if decide (y = x) then 1 else 0) + py_count x l'
  end.

(** ** Python dictionaries in insertion order *)

Section Dict.
Context {K V : Type} `{EqDecision K}.

Definition dict : Type := list (K * V).

Fixpoint dict_get (k : K) (d : dict) : option V :=
  match d with
  | [] => None
  | (k', v) :: d' => if decide (k' = k) then Some v else dict_get k d'
  end.

(** [d[k] = v]: an existing key keeps its position. *)
Fixpoint dict_set (k : K) (v : V) (d : dict) : dict :=
  match d with
  | [] => [(k, v)]
  | (k', v') :: d' =>
      if decide (k' = k) then (k, v) :: d' else (k', v') :: dict_set k v d'
  end.

Definition dict_contains (k : K) (d : dict) : bool :=
  match dict_get k d with Some _ => true | None => false end.

Definition dict_values (d : dict) : list V := d.*2.
End Dict.

Arguments dict : clear implicits.

(** [d[k]] as an expression: a missing key raises [KeyError]. *)
Definition getitem {V} (key : pyval) (d : dict pyval V) : Result V :=
  match dict_get key d with
  | Some v => ok v
  | None => raise (KeyError key)
  end.

Definition getitem_str {V} (key : string) (d : dict string V) : Result V :=
  match dict_get key d with
  | Some v => ok v
  | None => raise (KeyError (PStr key))
  end.

(** ** Component model

    The classes of [wv_dataclasses] are imported by the harness but are not
    part of the modelled file.  Each record below carries the attributes
    the harness reads or writes, under the attribute's own name. *)

Inductive Side : Type := LEFT | RIGHT.

#[global] Instance Side_eq_dec : EqDecision Side.
Proof. solve_decision. Defined.

(** The content hash of a component, the key of the BOM mapping. *)
Definition BomHash : Type := string.

(** Quantities are modelled as integers. *)
Definition Qty : Type := Z.

Module PinClass.
(** Modelled from the spec: the pin object of [wv_dataclasses], which is
    not among the sources.  A pin is "inactive" or "active(side,
    isRealConnection)" and may be activated again on another side
    (section 4.2); [activations] holds the activations the pin received,
    most recent first, so the empty list is the inactive state. *)
Record t : Type := mk {
  id : pyval;
  parent : string;
  activations : list (Side * bool)
}.

Definition is_active (p : t) : bool :=
  match activations p with [] => false | _ :: _ => true end.

Definition activate (side : Side) (is_connection : bool) (p : t) : t :=
  mk (id p) (parent p) ((side, is_connection) :: activations p).
End PinClass.

(** A reference to a pin object: the pin object stored under key [pin] in
    the [pin_objects] of the connector registered as [connector].  Mates and
    connection records hold such references (they alias the pin objects
    that [activate_pin] later mutates). *)
Record PinRef : Type := mkPinRef {
  ref_connector : string;
  ref_pin : pyval
}.

#[global] Instance PinRef_eq_dec : EqDecision PinRef.
Proof. solve_decision. Defined.

Module AdditionalComponent.
Record t : Type := mk {
  ignore_in_bom : bool;
  bom_hash : BomHash;
  bom_qty : Qty
}.
End AdditionalComponent.

Module Connector.
Record t : Type := mk {
  designator : string;
  category : pyval;
  ignore_in_bom : bool;
  bom_hash : BomHash;
  bom_qty : Qty;
  additional_components : list AdditionalComponent.t;
  pins : list pyval;
  pinlabels : list pyval;
  pin_objects : dict pyval PinClass.t
}.

Definition set_pin_objects (c : t) (po : dict pyval PinClass.t) : t :=
  mk (designator c) (category c) (ignore_in_bom c) (bom_hash c) (bom_qty c)
     (additional_components c) (pins c) (pinlabels c) po.

(** Modelled from the spec: [Connector.activate_pin] of [wv_dataclasses],
    which is not among the sources.  It marks the pin object stored under
    [pin_id] as active on [side], as a real connection or as a mate-only
    reference; the lookup [self.pin_objects[pin_id]] raises [KeyError]
    for an unknown id. *)
Definition activate_pin (c : t) (pin_id : pyval) (side : Side)
    (is_connection : bool) : Result t :=
  p ← getitem pin_id (pin_objects c);
  ok (set_pin_objects c
          (dict_set pin_id (PinClass.activate side is_connection p)
                    (pin_objects c))).

(** Modelled from the spec: the default of the keyword argument
    [is_connection]; [connect] makes real electrical connections. *)
Definition default_is_connection : bool := true.

(** Modelled from the spec: a connector as its constructor leaves it, with
    one inactive pin object per pin id. *)
Definition make (designator : string) (pins pinlabels : list pyval)
    (bom_hash : BomHash) : t :=
  mk designator PNone false bom_hash 1%Z [] pins pinlabels
     ((fun p => (p, PinClass.mk p designator [])) <$> pins).
End Connector.

Module WireClass.
Record t : Type := mk {
  id : pyval;
  bom_hash : BomHash
}.
End WireClass.

(** A connection record of a cable: either endpoint may be absent. *)
Record Connection : Type := mkConnection {
  from_pin_obj : option PinRef;
  via_wire_id : pyval;
  to_pin_obj : option PinRef
}.

#[global] Instance Connection_eq_dec : EqDecision Connection.
Proof. solve_decision. Defined.

Module Cable.
Record t : Type := mk {
  designator : string;
  category : pyval;
  ignore_in_bom : bool;
  bom_hash : BomHash;
  bom_qty : Qty;
  additional_components : list AdditionalComponent.t;
  colors : list pyval;
  wirelabels : list pyval;
  wire_objects : dict pyval WireClass.t;
  _connections : list Connection
}.

Definition set_connections (c : t) (cs : list Connection) : t :=
  mk (designator c) (category c) (ignore_in_bom c) (bom_hash c) (bom_qty c)
     (additional_components c) (colors c) (wirelabels c) (wire_objects c) cs.

(** Modelled from the spec: [Cable._connect] of [wv_dataclasses], which is
    not among the sources.  It "records the (fromPinRef, wireIndex,
    toPinRef) triple on the cable's connection list"; records accumulate
    and are neither deduplicated nor rejected (section 4.2). *)
Definition _connect (c : t) (from_pin_obj : option PinRef)
    (via_wire : pyval) (to_pin_obj : option PinRef) : Result t :=
  ok (set_connections c
          (_connections c ++ [mkConnection from_pin_obj via_wire to_pin_obj])).

(** Modelled from the spec: a cable as its constructor leaves it, with
    wire ids counting from 1 and no connection. *)
Definition make (designator : string) (category : pyval)
    (colors wirelabels : list pyval) (wire_hashes : list BomHash)
    (bom_hash : BomHash) : t :=
  mk designator category false bom_hash 1%Z [] colors wirelabels
     (imap (fun i h => let id := PInt (Z.of_nat i + 1) in
                       (id, WireClass.mk id h))
           wire_hashes)
     [].
End Cable.

Inductive ArrowDirection : Type := NONE | BACK | FORWARD | BOTH.
Inductive ArrowWeight : Type := SINGLE | DOUBLE.

Record Arrow : Type := mkArrow {
  direction : ArrowDirection;
  weight : ArrowWeight
}.

Inductive Mate : Type :=
  | MatePin (from to : PinRef) (arrow : Arrow)
  | MateComponent (from to : string) (arrow : Arrow).

Module TopLevelGraphicalComponent.
(** An instance of [TopLevelGraphicalComponent] that is neither a
    [Connector] nor a [Cable], by the attributes [_add_to_internal_bom]
    reads of it; [wire_objects] is [None] where the instance has no such
    attribute. *)
Record t : Type := mk {
  designator : string;
  category : pyval;
  ignore_in_bom : bool;
  bom_hash : BomHash;
  bom_qty : Qty;
  additional_components : list AdditionalComponent.t;
  wire_objects : option (dict pyval WireClass.t)
}.
End TopLevelGraphicalComponent.

(** The items [_add_to_internal_bom] can be handed: a [Connector], a
    [Cable], an instance of [TopLevelGraphicalComponent] that is neither, an
    [AdditionalComponent], or an instance of a class that is none of these
    ([OtherComponent], with its [ignore_in_bom] flag and its [str()]). *)
Inductive Component : Type :=
  | AConnector (c : Connector.t)
  | ACable (c : Cable.t)
  | ATopLevelGraphicalComponent (c : TopLevelGraphicalComponent.t)
  | AnAdditionalComponent (a : AdditionalComponent.t)
  | OtherComponent (ignore_in_bom : bool) (repr : string).

Definition ignore_in_bom (item : Component) : bool :=
  match item with
  | AConnector c => Connector.ignore_in_bom c
  | ACable c => Cable.ignore_in_bom c
  | ATopLevelGraphicalComponent c => TopLevelGraphicalComponent.ignore_in_bom c
  | AnAdditionalComponent a => AdditionalComponent.ignore_in_bom a
  | OtherComponent i _ => i
  end.

(** ** The BOM mapping *)

Module bom_entry.
(** One value of [self.bom]: a Python [dict] whose keys ["qty"],
    ["designators"] and ["category"] may each be absent ([None]). *)
Record t : Type := mk {
  qty : option Qty;
  designators : option (gset string);
  category : option pyval
}.

(** The [dict()] that [defaultdict(dict)] makes for a missing key. *)
Definition empty : t := mk None None None.
End bom_entry.

#[global] Instance bom_entry_eq_dec : EqDecision bom_entry.t.
Proof. solve_decision. Defined.

(** The three shapes of the [designator] argument of [_add]. *)
Inductive designator_arg : Type :=
  | DNone
  | DList (l : list string)
  | DOne (d : string).

(** ** The harness *)

Module Harness.
(** The attributes [__post_init__] creates.  [metadata], [options] and
    [tweak] only feed the rendering and are left out. *)
Record t : Type := mk {
  connectors : dict string Connector.t;
  cables : dict string Cable.t;
  mates : list Mate;
  bom : gmap BomHash bom_entry.t;
  additional_bom_items : list AdditionalComponent.t
}.

Definition set_connectors (h : t) (cs : dict string Connector.t) : t :=
  mk cs (cables h) (mates h) (bom h) (additional_bom_items h).
Definition set_cables (h : t) (cs : dict string Cable.t) : t :=
  mk (connectors h) cs (mates h) (bom h) (additional_bom_items h).
Definition set_mates (h : t) (ms : list Mate) : t :=
  mk (connectors h) (cables h) ms (bom h) (additional_bom_items h).
Definition set_bom (h : t) (b : gmap BomHash bom_entry.t) : t :=
  mk (connectors h) (cables h) (mates h) b (additional_bom_items h).
Definition set_additional_bom_items (h : t)
    (l : list AdditionalComponent.t) : t :=
  mk (connectors h) (cables h) (mates h) (bom h) l.
End Harness.

(** [Harness(...)] after [__post_init__]. *)
Definition new_harness : Harness.t := Harness.mk [] [] [] ∅ [].

Definition add_connector (self : Harness.t) (conn : Connector.t) : Harness.t :=
  Harness.set_connectors self
    (dict_set (Connector.designator conn) conn (Harness.connectors self)).

Definition add_cable (self : Harness.t) (cbl : Cable.t) : Harness.t :=
  Harness.set_cables self
    (dict_set (Cable.designator cbl) cbl (Harness.cables self)).

Definition add_additional_bom_item (self : Harness.t)
    (new_item : AdditionalComponent.t) : Harness.t :=
  Harness.set_additional_bom_items self
    (Harness.additional_bom_items self ++ [new_item]).

(** [self.connectors[name].activate_pin(pin, side, is_connection)]: the
    connector object registered under [name] is mutated in place. *)
Definition activate_pin_of (self : Harness.t) (name : string) (pin : pyval)
    (side : Side) (is_connection : bool) : Result Harness.t :=
  c ← getitem_str name (Harness.connectors self);
  c' ← Connector.activate_pin c pin side is_connection;
  ok (Harness.set_connectors self (dict_set name c' (Harness.connectors self))).

(** *** Mates *)

Section Mates.
(** [parse_arrow_str] of [wv_graphviz] is not among the sources: it is
    taken as a parameter, and may raise. *)
Variable parse_arrow_str : string -> Result ArrowDirection.

Definition add_mate_pin (self : Harness.t) (from_name : string)
    (from_pin : pyval) (to_name : string) (to_pin : pyval)
    (arrow_str : string) : Result Harness.t :=
  from_con ← getitem_str from_name (Harness.connectors self);
  from_pin_obj ← getitem from_pin (Connector.pin_objects from_con);
  to_con ← getitem_str to_name (Harness.connectors self);
  to_pin_obj ← getitem to_pin (Connector.pin_objects to_con);
  dir ← parse_arrow_str arrow_str;
  let arrow := mkArrow dir SINGLE in
  let self := Harness.set_mates self
                (Harness.mates self ++
                 [MatePin (mkPinRef from_name from_pin)
                          (mkPinRef to_name to_pin) arrow]) in
  self ← activate_pin_of self from_name from_pin RIGHT false;
  activate_pin_of self to_name to_pin LEFT false.

Definition add_mate_component (self : Harness.t) (from_name to_name : string)
    (arrow_str : string) : Result Harness.t :=
  dir ← parse_arrow_str arrow_str;
  let arrow := mkArrow dir SINGLE in
  ok (Harness.set_mates self
          (Harness.mates self ++ [MateComponent from_name to_name arrow])).
End Mates.

(** *** BOM aggregation *)

(** One call of the inner function [_add], by its arguments. *)
Record AddCall : Type := mkAddCall {
  call_hash : BomHash;
  call_qty : Qty;
  call_designator : designator_arg;
  call_category : pyval
}.

Section Bom.
(** The constant [AUTOGENERATED_PREFIX] of [wv_dataclasses] is not among
    the sources: it is taken as a parameter. *)
Variable AUTOGENERATED_PREFIX : string.

(** [des and not des.startswith(AUTOGENERATED_PREFIX)] *)
Definition visible_designator (des : string) : bool :=
  negb (String.eqb des "") && negb (String.prefix AUTOGENERATED_PREFIX des).

Definition designator_list (designator : designator_arg) : list string :=
  match designator with
  | DNone => []
  | DList l => l
  | DOne d => [d]
  end.

(** [bom_entry["designators"].add(des)] for the designators that pass the
    test, in list order. *)
Definition add_designators (l : list string) (s : gset string) : gset string :=
  foldl (fun s des => if visible_designator des then s ∪ {[des]} else s) s l.

(** The body of [_add] on the entry [self.bom[hash]]. *)
Definition _add_entry (qty : Qty) (designator : designator_arg)
    (category : pyval) (bom_entry : bom_entry.t) : bom_entry.t :=
  (* initialize missing fields *)
  let q := match bom_entry.qty bom_entry with
           | None => 0%Z
           | Some q => q
           end in
  let ds := match bom_entry.designators bom_entry with
            | None => ∅
            | Some ds => ds
            end in
  (* update fields *)
  bom_entry.mk (Some (q + qty)%Z)
               (Some (add_designators (designator_list designator) ds))
               (Some category).

Definition _add (hash : BomHash) (qty : Qty) (designator : designator_arg)
    (category : pyval) (bom : gmap BomHash bom_entry.t)
  : gmap BomHash bom_entry.t :=
  let bom_entry := default bom_entry.empty (bom !! hash) in
  <[hash := _add_entry qty designator category bom_entry]> bom.

(** [for comp in item.additional_components: ...] *)
Definition add_additional_components (cat : string) (designator : string)
    (comps : list AdditionalComponent.t) (bom : gmap BomHash bom_entry.t)
  : gmap BomHash bom_entry.t :=
  foldl (fun bom comp =>
           if AdditionalComponent.ignore_in_bom comp then bom
           else _add (AdditionalComponent.bom_hash comp)
                     (AdditionalComponent.bom_qty comp)
                     (DOne designator)
                     (PStr (cat ++ "_additional")) bom)
        bom comps.

Definition _add_to_internal_bom (item : Component)
    (bom : gmap BomHash bom_entry.t) : Result (gmap BomHash bom_entry.t) :=
  if ignore_in_bom item then ok bom
  else
    match item with
    | AConnector item =>
        let cat := "connector" in
        bom ← (if decide (Connector.category item = PStr "bundle") then
                 (* a connector has no [wire_objects] *)
                 raise (AttributeError "wire_objects")
               else
                 ok (_add (Connector.bom_hash item) (Connector.bom_qty item)
                            (DOne (Connector.designator item)) (PStr cat) bom));
        ok (add_additional_components cat (Connector.designator item)
                (Connector.additional_components item) bom)
    | ACable item =>
        let cat := if decide (Cable.category item = PStr "bundle")
                   then "wire" else "cable" in
        let bom :=
          if decide (Cable.category item = PStr "bundle") then
            foldl (fun bom subitem =>
                     _add (WireClass.bom_hash subitem)
                          (Cable.bom_qty item)
                          (DOne (Cable.designator item))
                          (PStr cat) bom)
                  bom (dict_values (Cable.wire_objects item))
          else
            _add (Cable.bom_hash item) (Cable.bom_qty item)
                 (DOne (Cable.designator item)) (PStr cat) bom in
        ok (add_additional_components cat (Cable.designator item)
                (Cable.additional_components item) bom)
    | ATopLevelGraphicalComponent item =>
        let cat := "" in
        bom ← (if decide (TopLevelGraphicalComponent.category item
                          = PStr "bundle") then
                 match TopLevelGraphicalComponent.wire_objects item with
                 | None => raise (AttributeError "wire_objects")
                 | Some wire_objects =>
                     ok (foldl
                           (fun bom subitem =>
                              _add (WireClass.bom_hash subitem)
                                   (TopLevelGraphicalComponent.bom_qty item)
                                   (DOne (TopLevelGraphicalComponent.designator
                                            item))
                                   (PStr cat) bom)
                           bom (dict_values wire_objects))
                 end
               else
                 ok (_add (TopLevelGraphicalComponent.bom_hash item)
                          (TopLevelGraphicalComponent.bom_qty item)
                          (DOne (TopLevelGraphicalComponent.designator item))
                          (PStr cat) bom));
        ok (add_additional_components cat
              (TopLevelGraphicalComponent.designator item)
              (TopLevelGraphicalComponent.additional_components item) bom)
    | AnAdditionalComponent item =>
        let cat := "additional" in
        ok (_add (AdditionalComponent.bom_hash item)
                   (AdditionalComponent.bom_qty item) DNone (PStr cat) bom)
    | OtherComponent _ repr =>
        raise (Exception ("Unknown type of item:" ++ newline ++ repr))
    end.

(** [populate_bom]; the closing [print_bom_debug(self.bom)] only prints. *)
Definition populate_bom (self : Harness.t) : Result Harness.t :=
  bom ← for_each _add_to_internal_bom
          (AConnector <$> dict_values (Harness.connectors self))
          (Harness.bom self);
  bom ← for_each _add_to_internal_bom
          (ACable <$> dict_values (Harness.cables self)) bom;
  bom ← for_each _add_to_internal_bom
          (AnAdditionalComponent <$> Harness.additional_bom_items self) bom;
  ok (Harness.set_bom self bom).

(** The calls of [_add] that [_add_to_internal_bom] makes for an item it
    does not reject, in order. *)
Definition additional_calls (cat : string) (designator : string)
    (comps : list AdditionalComponent.t) : list AddCall :=
  (fun comp => mkAddCall (AdditionalComponent.bom_hash comp)
                         (AdditionalComponent.bom_qty comp)
                         (DOne designator) (PStr (cat ++ "_additional")))
    <$> filter (fun comp => AdditionalComponent.ignore_in_bom comp = false) comps.

Definition wire_calls (item : Cable.t) : list AddCall :=
  (fun subitem => mkAddCall (WireClass.bom_hash subitem) (Cable.bom_qty item)
                            (DOne (Cable.designator item)) (PStr "wire"))
    <$> dict_values (Cable.wire_objects item).

Definition run_call (bom : gmap BomHash bom_entry.t) (c : AddCall)
  : gmap BomHash bom_entry.t :=
  _add (call_hash c) (call_qty c) (call_designator c) (call_category c) bom.

(** A sequence of BOM additions. *)
Definition add_all (calls : list AddCall) (bom : gmap BomHash bom_entry.t)
  : gmap BomHash bom_entry.t :=
  foldl run_call bom calls.
End Bom.

(** *** connect *)

(** The texts of the exceptions [connect] raises. *)
Definition msg_pin_ambiguous (name : string) (pin : pyval) : string :=
  name ++ ":" ++ py_str pin ++
  " is defined both in pinlabels and pins, for different pins.".

Definition msg_pin_duplicate (name : string) (pin : pyval) : string :=
  name ++ ":" ++ py_str pin ++ " is defined more than once.".

Definition msg_pin_not_found (name : string) (pin : pyval) : string :=
  name ++ ":" ++ py_str pin ++ " not found.".

Definition msg_wire_ambiguous (via_name : string) (via_wire : pyval) : string :=
  via_name ++ ":" ++ py_str via_wire ++
  " is defined both in colors and wirelabels, for different wires.".

Definition msg_wire_duplicate (via_name : string) (via_wire : pyval) : string :=
  via_name ++ ":" ++ py_str via_wire ++ " is used for more than one wire.".

(** The resolution of one pin reference against a connector: the three
    [if] statements of the loop body, returning the final value of the
    loop variable [pin] and whether the label branch rebound it. *)
Definition resolve_pin (name : string) (connector : Connector.t)
    (pin : pyval) : Result (pyval * bool) :=
  let pins := Connector.pins connector in
  let pinlabels := Connector.pinlabels connector in
  (* check if provided name is ambiguous *)
  _ ← ((if py_in pin pins && py_in pin pinlabels then
          if decide (py_index pin pins ≠ py_index pin pinlabels) then
            raise (Exception (msg_pin_ambiguous name pin))
          else ok ()
        else ok ()) : Result unit);
  '(pin, mapped) ←
      ((if py_in pin pinlabels then
         if decide (1 < py_count pin pinlabels)%nat then
           raise (Exception (msg_pin_duplicate name pin))
         else
           match py_index pin pinlabels with
           | None => raise ValueError
           | Some index =>
               (* map pin name to pin number *)
               match pins !! index with
               | None => raise IndexError
               | Some p => ok (p, true)
               end
           end
       else ok (pin, false)) : Result (pyval * bool));
  if negb (py_in pin pins) then
    raise (Exception (msg_pin_not_found name pin))
  else ok (pin, mapped).

(** One iteration of [for (name, pin) in zip([from_name, to_name],
    [from_pin, to_pin])], on the variables [from_pin] and [to_pin] of the
    enclosing call. *)
Definition check_endpoint (self : Harness.t) (from_name to_name : option string)
    (name : option string) (pin : pyval) (from_to : pyval * pyval)
  : Result (pyval * pyval) :=
  match name with
  | None => ok from_to
  | Some n =>
      match dict_get n (Harness.connectors self) with
      | None => ok from_to
      | Some connector =>
          '(pin, mapped) ← resolve_pin n connector pin;
          let '(from_pin, to_pin) := from_to in
          let from_pin :=
            if mapped && bool_decide (name = from_name) then pin else from_pin in
          let to_pin :=
            if mapped && bool_decide (name = to_name) then pin else to_pin in
          ok (from_pin, to_pin)
      end
  end.

(** The loop over both endpoints.  The two lists handed to [zip] are built
    before the first iteration, so the second iteration checks the
    caller's [to_pin]. *)
Definition check_endpoints (self : Harness.t) (from_name : option string)
    (from_pin : pyval) (to_name : option string) (to_pin : pyval)
  : Result (pyval * pyval) :=
  from_to ← check_endpoint self from_name to_name from_name from_pin
             (from_pin, to_pin);
  check_endpoint self from_name to_name to_name to_pin from_to.

(** The block "check via cable". *)
Definition resolve_via_wire (self : Harness.t) (via_name : string)
    (via_wire : pyval) : Result pyval :=
  match dict_get via_name (Harness.cables self) with
  | None => ok via_wire
  | Some cable =>
      let colors := Cable.colors cable in
      let wirelabels := Cable.wirelabels cable in
      (* check if provided name is ambiguous *)
      _ ← ((if py_in via_wire colors && py_in via_wire wirelabels then
              if decide (py_index via_wire colors ≠ py_index via_wire wirelabels)
              then raise (Exception (msg_wire_ambiguous via_name via_wire))
              else ok ()
            else ok ()) : Result unit);
      if py_in via_wire colors then
        if decide (1 < py_count via_wire colors)%nat then
          raise (Exception (msg_wire_duplicate via_name via_wire))
        else
          match py_index via_wire colors with
          | None => raise ValueError
          (* list index starts at 0, wire IDs start at 1 *)
          | Some i => ok (PInt (Z.of_nat i + 1))
          end
      else if py_in via_wire wirelabels then
        if decide (1 < py_count via_wire wirelabels)%nat then
          raise (Exception (msg_wire_duplicate via_name via_wire))
        else
          match py_index via_wire wirelabels with
          | None => raise ValueError
          | Some i => ok (PInt (Z.of_nat i + 1))
          end
      else ok via_wire
  end.

(** [con.pin_objects[pin]] for an endpoint whose connector name is given. *)
Definition lookup_pin_obj (self : Harness.t) (name : option string)
    (pin : pyval) : Result (option PinRef) :=
  match name with
  | Some n =>
      con ← getitem_str n (Harness.connectors self);
      _ ← getitem pin (Connector.pin_objects con);
      ok (Some (mkPinRef n pin))
  | None => ok None
  end.

(** [if name in self.connectors: self.connectors[name].activate_pin(pin, side)] *)
Definition activate_if_known (self : Harness.t) (name : option string)
    (pin : pyval) (side : Side) : Result Harness.t :=
  match name with
  | Some n =>
      if dict_contains n (Harness.connectors self) then
        activate_pin_of self n pin side Connector.default_is_connection
      else ok self
  | None => ok self
  end.

(** What [connect] knows of the method [_connect] of a cable: a call that
    returns the cable with its connection list changed, or raises. *)
Definition CableConnect : Type :=
  Cable.t -> option PinRef -> pyval -> option PinRef -> Result Cable.t.

(** The part "perform the actual connection", whatever [Cable._connect]
    does. *)
Definition perform_connection_with (_connect : CableConnect)
    (self : Harness.t) (from_name : option string)
    (from_pin : pyval) (via_name : string) (via_wire : pyval)
    (to_name : option string) (to_pin : pyval) : Result Harness.t :=
  from_pin_obj ← lookup_pin_obj self from_name from_pin;
  to_pin_obj ← lookup_pin_obj self to_name to_pin;
  cable ← getitem_str via_name (Harness.cables self);
  cable ← _connect cable from_pin_obj via_wire to_pin_obj;
  let self := Harness.set_cables self
                (dict_set via_name cable (Harness.cables self)) in
  self ← activate_if_known self from_name from_pin RIGHT;
  activate_if_known self to_name to_pin LEFT.

(** [connect], whatever [Cable._connect] does. *)
Definition connect_with (_connect : CableConnect)
    (self : Harness.t) (from_name : option string)
    (from_pin : pyval) (via_name : string) (via_wire : pyval)
    (to_name : option string) (to_pin : pyval) : Result Harness.t :=
  (* check from and to connectors *)
  '(from_pin, to_pin) ← check_endpoints self from_name from_pin to_name to_pin;
  (* check via cable *)
  via_wire ← resolve_via_wire self via_name via_wire;
  (* perform the actual connection *)
  perform_connection_with _connect self from_name from_pin via_name via_wire
    to_name to_pin.

(** [connect] and its last part with the [Cable._connect] modelled from
    the spec. *)
Definition perform_connection
  : Harness.t -> option string -> pyval -> string -> pyval ->
    option string -> pyval -> Result Harness.t :=
  perform_connection_with Cable._connect.

Definition connect
  : Harness.t -> option string -> pyval -> string -> pyval ->
    option string -> pyval -> Result Harness.t :=
  connect_with Cable._connect.

(** *** output

    [output] acts on the graph object, the file system and the console
    only.  It is modelled by the sequence of these calls, in order, each
    assumed to return; the graph object ([self.graph]) is the same for all
    of them and is left out, as are [self.metadata] and [self.options],
    which [generate_html_output] receives. *)
Inductive OutputAction : Type :=
  | Render (format filename : string) (view cleanup : bool)
  | EmbedSvgImagesFile (path : string)
  | Save (filename : string)
  | WriteTsv (path : string) (bomlist : list (list string))
  | Print (msg : string)
  | GenerateHtmlOutput (filename : string) (bomlist : list (list string))
  | Unlink (path : string)
  | Replace (path target : string).

#[global] Instance OutputAction_eq_dec : EqDecision OutputAction.
Proof. solve_decision. Defined.

(** [f in fmt] on a tuple of strings. *)
Definition str_in (f : string) (fmt : list string) : bool :=
  existsb (String.eqb f) fmt.

(** The body of [for f in fmt]: [graph.format = f] and [graph.render(...)]
    for the graphical formats. *)
Definition render_format (filename : string) (view cleanup : bool)
    (f : string) : list OutputAction :=
  if str_in f ["png"; "svg"; "html"] then
    (* if HTML format is specified, generate SVG for embedding into HTML *)
    let f := if String.eqb f "html" then "svg" else f in
    (* SVG file will be renamed/deleted later *)
    let _filename := if String.eqb f "svg" then filename ++ ".tmp"
                     else filename in
    [Render f _filename view cleanup]
  else [].

Definition output (self : Harness.t) (filename : string) (view cleanup : bool)
    (fmt : list string) : list OutputAction :=
  (* graphical output *)
  (flat_map (render_format filename view cleanup) fmt
   (* embed images into SVG output *)
   ++ (if str_in "svg" fmt || str_in "html" fmt
       then [EmbedSvgImagesFile (filename ++ ".tmp.svg")] else [])
   (* GraphViz output *)
   ++ (if str_in "gv" fmt then [Save (filename ++ ".gv")] else [])
   (* BOM output *)
   ++ (let bomlist : list (list string) := [[]] in
       (if str_in "tsv" fmt
        then [WriteTsv (filename ++ ".bom.tsv") bomlist] else [])
       ++ (if str_in "csv" fmt
           then [Print "CSV output is not yet supported"] else [])
       (* HTML output *)
       ++ (if str_in "html" fmt
           then [GenerateHtmlOutput filename bomlist] else [])
       (* PDF output *)
       ++ (if str_in "pdf" fmt
           then [Print "PDF output is not yet supported"] else []))
   (* delete SVG if not needed *)
   ++ (if str_in "html" fmt && negb (str_in "svg" fmt)
       then [Unlink (filename ++ ".tmp.svg")]
       else if str_in "svg" fmt
            then [Replace (filename ++ ".tmp.svg") (filename ++ ".svg")]
            else []))%list.

Definition is_render (a : OutputAction) : bool :=
  match a with Render _ _ _ _ => true | _ => false end.

(** The default of the parameter [fmt]. *)
Definition default_fmt : list string := ["html"; "png"; "svg"; "tsv"].

(** ** The calls of [_add] behind an aggregation *)

(** The calls [_add_to_internal_bom] makes for one item, or the exception
    it raises before making any. *)
Definition item_calls (item : Component) : Result (list AddCall) :=
  if ignore_in_bom item then ok []
  else
    match item with
    | AConnector c =>
        if decide (Connector.category c = PStr "bundle") then
          raise (AttributeError "wire_objects")
        else
          ok (mkAddCall (Connector.bom_hash c) (Connector.bom_qty c)
                        (DOne (Connector.designator c)) (PStr "connector")
              :: additional_calls "connector" (Connector.designator c)
                   (Connector.additional_components c))
    | ACable c =>
        if decide (Cable.category c = PStr "bundle") then
          ok (wire_calls c
              ++ additional_calls "wire" (Cable.designator c)
                   (Cable.additional_components c))%list
        else
          ok (mkAddCall (Cable.bom_hash c) (Cable.bom_qty c)
                        (DOne (Cable.designator c)) (PStr "cable")
              :: additional_calls "cable" (Cable.designator c)
                   (Cable.additional_components c))
    | ATopLevelGraphicalComponent c =>
        let designator := TopLevelGraphicalComponent.designator c in
        own ← (if decide (TopLevelGraphicalComponent.category c = PStr "bundle")
               then
                 match TopLevelGraphicalComponent.wire_objects c with
                 | None => raise (AttributeError "wire_objects")
                 | Some wire_objects =>
                     ok ((fun subitem =>
                            mkAddCall (WireClass.bom_hash subitem)
                                      (TopLevelGraphicalComponent.bom_qty c)
                                      (DOne designator) (PStr ""))
                           <$> dict_values wire_objects)
                 end
               else
                 ok [mkAddCall (TopLevelGraphicalComponent.bom_hash c)
                               (TopLevelGraphicalComponent.bom_qty c)
                               (DOne designator) (PStr "")]);
        ok (own ++ additional_calls "" designator
                     (TopLevelGraphicalComponent.additional_components c))%list
    | AnAdditionalComponent a =>
        ok [mkAddCall (AdditionalComponent.bom_hash a)
                      (AdditionalComponent.bom_qty a) DNone (PStr "additional")]
    | OtherComponent _ repr =>
        raise (Exception ("Unknown type of item:" ++ newline ++ repr))
    end.

Fixpoint items_calls (items : list Component) : Result (list AddCall) :=
  match items with
  | [] => ok []
  | item :: items' =>
      cs ← item_calls item;
      cs' ← items_calls items';
      ok (cs ++ cs')%list
  end.

(** The items [populate_bom] visits, in order. *)
Definition harness_items (self : Harness.t) : list Component :=
  ((AConnector <$> dict_values (Harness.connectors self))
   ++ (ACable <$> dict_values (Harness.cables self))
   ++ (AnAdditionalComponent <$> Harness.additional_bom_items self))%list.

(** The quantity and the designator set of an entry of the mapping; an
    absent key, like an absent field, counts as [0] and as the empty set. *)
Definition entry_qty (o : option bom_entry.t) : Qty :=
  default 0%Z (o ≫= bom_entry.qty).

Definition entry_designators (o : option bom_entry.t) : gset string :=
  default ∅ (o ≫= bom_entry.designators).

Definition double_qty (e : bom_entry.t) : bom_entry.t :=
  bom_entry.mk ((fun q => 2 * q)%Z <$> bom_entry.qty e)
               (bom_entry.designators e) (bom_entry.category e).

(** Whether some call of the sequence is keyed by [k]. *)
Definition touched (k : BomHash) (calls : list AddCall) : bool :=
  existsb (fun c => bool_decide (call_hash c = k)) calls.

(** The sum of the quantities of the calls keyed by [k]. *)
Fixpoint calls_qty (k : BomHash) (calls : list AddCall) : Qty :=
  match calls with
  | [] => 0%Z
  | c :: calls' =>
      ((if decide (call_hash c = k) then call_qty c else 0)
       + calls_qty k calls')%Z
  end.

(** The category of the last call keyed by [k]. *)
Fixpoint calls_category (k : BomHash) (calls : list AddCall) : pyval :=
  match calls with
  | [] => PNone
  | c :: calls' =>
      if touched k calls' then calls_category k calls' else call_category c
  end.

Section BomCalls.
Variable AUTOGENERATED_PREFIX : string.

(** The designators of a list that [_add] lets into the set. *)
Definition visible_set (l : list string) : gset string :=
  list_to_set
    (filter (fun des => visible_designator AUTOGENERATED_PREFIX des = true) l).

(** The union of the designators the calls keyed by [k] let in. *)
Fixpoint calls_designators (k : BomHash) (calls : list AddCall) : gset string :=
  match calls with
  | [] => ∅
  | c :: calls' =>
      (if decide (call_hash c = k)
       then visible_set (designator_list (call_designator c)) else ∅)
      ∪ calls_designators k calls'
  end.

(** What a sequence of calls does to the entry under one key. *)
Fixpoint merged (k : BomHash) (calls : list AddCall)
    (o : option bom_entry.t) : option bom_entry.t :=
  match calls with
  | [] => o
  | c :: calls' =>
      merged k calls'
        (if decide (call_hash c = k) then
           Some (_add_entry AUTOGENERATED_PREFIX (call_qty c)
                   (call_designator c) (call_category c)
                   (default bom_entry.empty o))
         else o)
  end.
End BomCalls.

(** ** The set-up of the end-to-end scenarios (section 8) *)

Definition X1 : Connector.t :=
  Connector.make "X1" [PInt 1; PInt 2] [PStr "GND"; PStr "VCC"] "connector-a".

Definition X2 : Connector.t :=
  Connector.make "X2" [PInt 1; PInt 2] [] "connector-b".

Definition W1 : Cable.t :=
  Cable.make "W1" PNone [PStr "RD"; PStr "BK"] [] ["wire-rd"; "wire-bk"] "cable-a".

Definition scenario : Harness.t :=
  add_cable (add_connector (add_connector new_harness X1) X2) W1.

(** Connectors whose pin ids and pin labels overlap: ["A"] is the id of the
    first pin of [X3] and the label of its second pin, the id and the label
    of the first pin of [X4], and the label of both pins of [X5]. *)
Definition X3 : Connector.t :=
  Connector.make "X3" [PStr "A"; PStr "B"] [PStr "B"; PStr "A"] "connector-c".

Definition X4 : Connector.t :=
  Connector.make "X4" [PStr "A"; PStr "B"] [PStr "A"; PStr "C"] "connector-d".

Definition X5 : Connector.t :=
  Connector.make "X5" [PInt 1; PInt 2] [PStr "A"; PStr "A"] "connector-e".

Definition scenario_labels : Harness.t :=
  add_connector (add_connector (add_connector scenario X3) X4) X5.

(** An instance of the parameter [parse_arrow_str] for the examples: it
    knows four arrows and raises on any other string. *)
Definition example_parse_arrow_str (arrow_str : string) : Result ArrowDirection :=
  if String.eqb arrow_str "--" then ok NONE
  else if String.eqb arrow_str "<-" then ok BACK
  else if String.eqb arrow_str "->" then ok FORWARD
  else if String.eqb arrow_str "<->" then ok BOTH
  else raise ValueError.

(** An instance of the parameter [AUTOGENERATED_PREFIX] for the examples. *)
Definition example_AUTOGENERATED_PREFIX : string := "AUTOGENERATED_".

(** A bundle of two wires, and a harness holding nothing else. *)
Definition B1 : Cable.t :=
  Cable.make "B1" (PStr "bundle") [PStr "RD"; PStr "BK"] []
             ["wire-rd"; "wire-bk"] "bundle-a".

(** A cable whose colors and wire labels overlap: ["BK"] is the color of
    the second wire and the label of the first, ["RD"] is the color of two
    wires, ["SIG"] the label of two wires and ["AUX"] the label of one. *)
Definition W2 : Cable.t :=
  Cable.make "W2" PNone [PStr "RD"; PStr "BK"; PStr "RD"; PStr "GN"]
             [PStr "BK"; PStr "SIG"; PStr "SIG"; PStr "AUX"]
             ["wire-rd"; "wire-bk"; "wire-rd"; "wire-gn"] "cable-b".

Definition scenario_wires : Harness.t := add_cable scenario W2.


(** ** Observations on a harness *)

(** The pin object behind a reference, if there is one. *)
Definition pin_obj (self : Harness.t) (name : string) (pin : pyval)
  : option PinClass.t :=
  c ← dict_get name (Harness.connectors self);
  dict_get pin (Connector.pin_objects c).

(** The activations of a pin; none for a pin that does not exist. *)
Definition pin_activations (self : Harness.t) (name : string) (pin : pyval)
  : list (Side * bool) :=
  match pin_obj self name pin with
  | Some p => PinClass.activations p
  | None => []
  end.

(** The connection list of a registered cable. *)
Definition connections (self : Harness.t) (via_name : string)
  : list Connection :=
  match dict_get via_name (Harness.cables self) with
  | Some c => Cable._connections c
  | None => []
  end.

(** An endpoint that [perform_connection] can pick up: no connector named,
    or a pin object stored under the pin of a registered connector. *)
Definition endpoint_exists (self : Harness.t) (name : option string)
    (pin : pyval) : Prop :=
  match name with
  | None => True
  | Some n => is_Some (pin_obj self n pin)
  end.

Definition endpoint_ref (name : option string) (pin : pyval) : option PinRef :=
  (fun n => mkPinRef n pin) <$> name.

(** The two endpoints of the connection recorded last on a cable. *)
Definition recorded_endpoints (self : Harness.t) (via_name : string)
  : option (option PinRef * option PinRef) :=
  (fun c => (from_pin_obj c, to_pin_obj c)) <$> last (connections self via_name).

(** What the resolution of references reads of a registered connector and
    of a registered cable. *)
Definition connector_lists (self : Harness.t) (name : string)
  : option (list pyval * list pyval) :=
  (fun c => (Connector.pins c, Connector.pinlabels c))
    <$> dict_get name (Harness.connectors self).

Definition cable_lists (self : Harness.t) (via_name : string)
  : option (list pyval * list pyval) :=
  (fun c => (Cable.colors c, Cable.wirelabels c))
    <$> dict_get via_name (Harness.cables self).

(** An entry that holds all three keys, so that reading ["qty"],
    ["designators"] or ["category"] from it raises no [KeyError]. *)
Definition entry_complete (e : bom_entry.t) : Prop :=
  is_Some (bom_entry.qty e)
  /\ is_Some (bom_entry.designators e)
  /\ is_Some (bom_entry.category e).

(** The designators that an argument [designator] of [_add] names. *)
Definition carries (designator : designator_arg) (d : string) : Prop :=
  match designator with
  | DNone => False
  | DList l => d ∈ l
  | DOne d' => d' = d
  end.

(** How many wire objects have the content hash [k]. *)
Definition wires_with_hash (k : BomHash) (ws : list WireClass.t) : nat :=
  length (filter (fun w => WireClass.bom_hash w = k) ws).

(** The quantities of the additional components with content hash [k]
    that are not ignored, summed up. *)
Fixpoint additional_qty (k : BomHash) (comps : list AdditionalComponent.t)
  : Qty :=
  match comps with
  | [] => 0%Z
  | comp :: comps' =>
      ((if AdditionalComponent.ignore_in_bom comp then 0
        else if decide (AdditionalComponent.bom_hash comp = k)
             then AdditionalComponent.bom_qty comp else 0)
       + additional_qty k comps')%Z
  end.

(** Some additional component that is not ignored has the content hash
    [k]. *)
Definition has_additional (k : BomHash) (comps : list AdditionalComponent.t)
  : Prop :=
  exists comp, comp ∈ comps
               /\ AdditionalComponent.ignore_in_bom comp = false
               /\ AdditionalComponent.bom_hash comp = k.

(** * Properties *)

(** ** Lists and dictionaries *)

Lemma py_in_elem_of x l : py_in x l = true <-> x ∈ l.
Proof.
  induction l as [|y l IH]; simpl.
  - split; [discriminate | intros H; inversion H].
  - destruct (decide (y = x)) as [->|Hne].
    + split; [intros _; left | reflexivity].
    + rewrite IH. split; [intros H; right; exact H |].
      intros H. inversion H; subst; [congruence | assumption].
Qed.

Lemma py_index_lookup x l i : py_index x l = Some i -> l !! i = Some x.
Proof.
  revert i. induction l as [|y l IH]; intros i; simpl; [discriminate |].
  destruct (decide (y = x)) as [->|Hne].
  - intros [= <-]. reflexivity.
  - destruct (py_index x l) as [j|] eqn:E; simpl; [|discriminate].
    intros [= <-]. simpl. apply IH. reflexivity.
Qed.

Lemma py_in_index x l : py_in x l = true -> exists i, py_index x l = Some i.
Proof.
  induction l as [|y l IH]; simpl; [discriminate |].
  destruct (decide (y = x)); [eauto |].
  intros H. destruct (IH H) as [i ->]. simpl. eauto.
Qed.

Lemma py_not_in_index x l : py_in x l = false -> py_index x l = None.
Proof.
  induction l as [|y l IH]; simpl; [reflexivity |].
  destruct (decide (y = x)); [discriminate |].
  intros H. rewrite (IH H). reflexivity.
Qed.

Lemma lookup_py_in (l : list pyval) i x : l !! i = Some x -> py_in x l = true.
Proof.
  intros H. apply py_in_elem_of. apply list_elem_of_lookup. eauto.
Qed.

Section DictFacts.
Context {K V : Type} `{EqDecision K}.
Implicit Types (d : dict K V) (k : K) (v : V).

Lemma dict_get_set_eq k v d : dict_get k (dict_set k v d) = Some v.
Proof.
  induction d as [|[k' v'] d IH]; simpl.
  - destruct (decide (k = k)); congruence.
  - destruct (decide (k' = k)) as [->|Hne]; simpl.
    + destruct (decide (k = k)); congruence.
    + destruct (decide (k' = k)); [congruence | exact IH].
Qed.

Lemma dict_get_set_ne k k' v d :
  k ≠ k' -> dict_get k' (dict_set k v d) = dict_get k' d.
Proof.
  intros Hne. induction d as [|[k0 v0] d IH]; simpl.
  - destruct (decide (k = k')); congruence.
  - destruct (decide (k0 = k)) as [->|Hne0]; simpl.
    + destruct (decide (k = k')); congruence.
    + destruct (decide (k0 = k')); [reflexivity | exact IH].
Qed.

Lemma dict_contains_get k d v : dict_get k d = Some v -> dict_contains k d = true.
Proof. unfold dict_contains. intros ->. reflexivity. Qed.
End DictFacts.

(** ** The result monad *)

Lemma bind_ok {A B} (f : A -> Result B) (x : A) : (ok x ≫= f) = f x.
Proof. reflexivity. Qed.

Lemma bind_raise {A B} (f : A -> Result B) (e : error) : (raise e ≫= f) = raise e.
Proof. reflexivity. Qed.

Lemma ok_inj {A} (x y : A) : ok x = ok y -> x = y.
Proof. intros [= ->]. reflexivity. Qed.

Lemma for_each_app {A S} (f : A -> S -> Result S) l1 l2 s :
  for_each f (l1 ++ l2) s = (for_each f l1 s ≫= for_each f l2).
Proof.
  revert s. induction l1 as [|x l1 IH]; intros s; simpl; [reflexivity |].
  destruct (f x s) as [e|s']; simpl; [reflexivity | apply IH].
Qed.

(** ** Resolution of pin references *)

Section ResolvePin.
Variables (name : string) (connector : Connector.t) (pin : pyval).

Let pins := Connector.pins connector.
Let pinlabels := Connector.pinlabels connector.

Lemma resolve_pin_ambiguous :
  py_in pin pins = true -> py_in pin pinlabels = true ->
  py_index pin pins ≠ py_index pin pinlabels ->
  resolve_pin name connector pin = raise (Exception (msg_pin_ambiguous name pin)).
Proof.
  intros Hp Hl Hne. unfold resolve_pin. fold pins pinlabels.
  rewrite Hp, Hl. simpl.
  destruct (decide (py_index pin pins ≠ py_index pin pinlabels));
    [reflexivity | contradiction].
Qed.

Lemma resolve_pin_duplicate :
  py_in pin pinlabels = true ->
  ~ (py_in pin pins = true /\ py_index pin pins ≠ py_index pin pinlabels) ->
  (1 < py_count pin pinlabels)%nat ->
  resolve_pin name connector pin = raise (Exception (msg_pin_duplicate name pin)).
Proof.
  intros Hl Hcross Hcount. unfold resolve_pin. fold pins pinlabels.
  rewrite Hl.
  destruct (py_in pin pins) eqn:Hp; simpl.
  - destruct (decide (py_index pin pins ≠ py_index pin pinlabels)) as [Hne|_].
    + exfalso. apply Hcross. split; [reflexivity | exact Hne].
    + simpl. destruct (decide (1 < py_count pin pinlabels)%nat);
        [reflexivity | lia].
  - destruct (decide (1 < py_count pin pinlabels)%nat); [reflexivity | lia].
Qed.

Lemma resolve_pin_label i p :
  py_in pin pinlabels = true ->
  ~ (py_in pin pins = true /\ py_index pin pins ≠ py_index pin pinlabels) ->
  ~ (1 < py_count pin pinlabels)%nat ->
  py_index pin pinlabels = Some i -> pins !! i = Some p ->
  resolve_pin name connector pin = ok (p, true).
Proof.
  intros Hl Hcross Hcount Hi Hpi. unfold resolve_pin. fold pins pinlabels.
  rewrite Hl.
  assert (Hstep1 : (if py_in pin pins && true then
                      if decide (py_index pin pins ≠ py_index pin pinlabels)
                      then raise (Exception (msg_pin_ambiguous name pin))
                      else ok ()
                    else ok ()) = ok ()).
  { destruct (py_in pin pins) eqn:Hp; simpl; [|reflexivity].
    destruct (decide (py_index pin pins ≠ py_index pin pinlabels))
      as [Hne|_]; [|reflexivity].
    exfalso. apply Hcross. split; [reflexivity | exact Hne]. }
  rewrite Hstep1. simpl.
  destruct (decide (1 < py_count pin pinlabels)%nat); [lia |].
  rewrite Hi, Hpi. simpl. rewrite (lookup_py_in _ _ _ Hpi). reflexivity.
Qed.

Lemma resolve_pin_direct :
  py_in pin pins = true -> py_in pin pinlabels = false ->
  resolve_pin name connector pin = ok (pin, false).
Proof.
  intros Hp Hl. unfold resolve_pin. fold pins pinlabels.
  rewrite Hp, Hl. simpl. rewrite Hp. reflexivity.
Qed.

Lemma resolve_pin_not_found :
  py_in pin pins = false -> py_in pin pinlabels = false ->
  resolve_pin name connector pin = raise (Exception (msg_pin_not_found name pin)).
Proof.
  intros Hp Hl. unfold resolve_pin. fold pins pinlabels.
  rewrite Hp, Hl. simpl. rewrite Hp. reflexivity.
Qed.
End ResolvePin.

Lemma check_endpoint_registered self from_name to_name n c pin from_to :
  dict_get n (Harness.connectors self) = Some c ->
  check_endpoint self from_name to_name (Some n) pin from_to =
    ('(p, mapped) ← resolve_pin n c pin;
     ok (if mapped && bool_decide (Some n = from_name) then p else from_to.1,
         if mapped && bool_decide (Some n = to_name) then p else from_to.2)).
Proof.
  intros H. unfold check_endpoint. rewrite H.
  destruct (resolve_pin n c pin) as [e|[p m]]; simpl; [reflexivity |].
  destruct from_to; reflexivity.
Qed.

Lemma connect_from_raises self n c pin e via_name via_wire to_name to_pin :
  dict_get n (Harness.connectors self) = Some c ->
  resolve_pin n c pin = raise e ->
  connect self (Some n) pin via_name via_wire to_name to_pin = raise e.
Proof.
  intros Hc He. unfold connect, connect_with, check_endpoints; fold perform_connection.
  rewrite (check_endpoint_registered _ _ _ _ _ _ _ Hc), He. reflexivity.
Qed.

Lemma connect_to_raises self from_name from_pin n c pin e via_name via_wire
    from_to :
  check_endpoint self from_name (Some n) from_name from_pin (from_pin, pin)
    = ok from_to ->
  dict_get n (Harness.connectors self) = Some c ->
  resolve_pin n c pin = raise e ->
  connect self from_name from_pin via_name via_wire (Some n) pin = raise e.
Proof.
  intros Hfrom Hc He. unfold connect, connect_with, check_endpoints; fold perform_connection.
  rewrite Hfrom, bind_ok.
  rewrite (check_endpoint_registered _ _ _ _ _ _ _ Hc), He. reflexivity.
Qed.

(** ** Claims on the resolution of pin references *)

(** C4: in [connect], a pin reference found both among the pin ids and
    among the pin labels of a registered connector raises the "defined both
    in pinlabels and pins, for different pins" exception when the two
    positions differ, at the from endpoint and, once the from endpoint has
    passed, at the to endpoint.  When the two positions agree the reference
    is accepted: resolution goes on with the label rule, which maps it to
    the very same pin unless the label is a duplicate. *)
Theorem connect_pin_in_both_spaces self name connector pin :
  dict_get name (Harness.connectors self) = Some connector ->
  py_in pin (Connector.pins connector) = true ->
  py_in pin (Connector.pinlabels connector) = true ->
  (py_index pin (Connector.pins connector)
     ≠ py_index pin (Connector.pinlabels connector) ->
   (forall via_name via_wire to_name to_pin,
      connect self (Some name) pin via_name via_wire to_name to_pin
      = raise (Exception (msg_pin_ambiguous name pin)))
   /\ (forall from_name from_pin via_name via_wire from_to,
         check_endpoint self from_name (Some name) from_name from_pin
           (from_pin, pin) = ok from_to ->
         connect self from_name from_pin via_name via_wire (Some name) pin
         = raise (Exception (msg_pin_ambiguous name pin))))
  /\ (py_index pin (Connector.pins connector)
        = py_index pin (Connector.pinlabels connector) ->
      resolve_pin name connector pin
      = (if decide (1 < py_count pin (Connector.pinlabels connector))%nat
         then raise (Exception (msg_pin_duplicate name pin))
         else ok (pin, true))
      /\ (~ (1 < py_count pin (Connector.pinlabels connector))%nat ->
          forall from_name to_name from_to,
            check_endpoint self from_name to_name (Some name) pin from_to
            = ok (if bool_decide (Some name = from_name) then pin else from_to.1,
                  if bool_decide (Some name = to_name) then pin else from_to.2))).
Proof.
  intros Hc Hp Hl. split.
  - intros Hne.
    pose proof (resolve_pin_ambiguous name connector pin Hp Hl Hne) as He.
    split.
    + intros. eapply connect_from_raises; eassumption.
    + intros. eapply connect_to_raises; eassumption.
  - intros Heq.
    destruct (py_in_index _ _ Hl) as [i Hi].
    assert (Hpi : Connector.pins connector !! i = Some pin).
    { apply py_index_lookup. rewrite Heq. exact Hi. }
    assert (Hcross : ~ (py_in pin (Connector.pins connector) = true
                        /\ py_index pin (Connector.pins connector)
                           ≠ py_index pin (Connector.pinlabels connector))).
    { intros [_ Hne]. contradiction. }
    assert (Hres : resolve_pin name connector pin
      = (if decide (1 < py_count pin (Connector.pinlabels connector))%nat
         then raise (Exception (msg_pin_duplicate name pin))
         else ok (pin, true))).
    { destruct (decide (1 < py_count pin (Connector.pinlabels connector))%nat)
        as [Hdup|Hone].
      - apply resolve_pin_duplicate; assumption.
      - eapply resolve_pin_label; eassumption. }
    split; [exact Hres |].
    intros Hone from_name to_name from_to.
    rewrite (check_endpoint_registered _ _ _ _ _ _ _ Hc), Hres.
    destruct (decide (1 < py_count pin (Connector.pinlabels connector))%nat);
      [contradiction | reflexivity].
Qed.

Lemma connect_pin_in_both_spaces_witness :
  connect scenario_labels (Some "X3") (PStr "A") "W1" (PStr "RD")
          (Some "X2") (PInt 1)
  = raise (Exception
      "X3:A is defined both in pinlabels and pins, for different pins.")
  /\ resolve_pin "X4" X4 (PStr "A") = ok (PStr "A", true).
Proof.
  split.
  - apply (connect_pin_in_both_spaces scenario_labels "X3" X3 (PStr "A"));
      [reflexivity | reflexivity | reflexivity | vm_compute; congruence].
  - apply (connect_pin_in_both_spaces scenario_labels "X4" X4 (PStr "A"));
      reflexivity.
Defined.

(** C5: in [connect], a pin reference that is a pin label of a registered
    connector raises an ambiguity exception when the label occurs more than
    once (the duplicate-label exception, or the pins/labels one when the
    reference is also a pin id at another position).  When the label occurs
    once and the reference is not ambiguous across pin ids and labels, it
    resolves to the pin id at the label's position, which then replaces the
    endpoint's pin. *)
Theorem connect_pin_label_resolution self name connector pin :
  dict_get name (Harness.connectors self) = Some connector ->
  py_in pin (Connector.pinlabels connector) = true ->
  let cross :=
    py_in pin (Connector.pins connector) = true
    /\ py_index pin (Connector.pins connector)
       ≠ py_index pin (Connector.pinlabels connector) in
  ((1 < py_count pin (Connector.pinlabels connector))%nat ->
   let e := Exception (if decide cross then msg_pin_ambiguous name pin
                       else msg_pin_duplicate name pin) in
   resolve_pin name connector pin = raise e
   /\ (forall via_name via_wire to_name to_pin,
         connect self (Some name) pin via_name via_wire to_name to_pin
         = raise e)
   /\ (forall from_name from_pin via_name via_wire from_to,
         check_endpoint self from_name (Some name) from_name from_pin
           (from_pin, pin) = ok from_to ->
         connect self from_name from_pin via_name via_wire (Some name) pin
         = raise e))
  /\ (py_count pin (Connector.pinlabels connector) = 1%nat ->
      ~ cross ->
      forall i p,
        py_index pin (Connector.pinlabels connector) = Some i ->
        Connector.pins connector !! i = Some p ->
        resolve_pin name connector pin = ok (p, true)
        /\ (forall from_name to_name from_to,
              check_endpoint self from_name to_name (Some name) pin from_to
              = ok (if bool_decide (Some name = from_name) then p else from_to.1,
                    if bool_decide (Some name = to_name) then p else from_to.2))).
Proof.
  intros Hc Hl cross. split.
  - intros Hdup e.
    assert (He : resolve_pin name connector pin = raise e).
    { subst e. destruct (decide cross) as [[Hp Hne]|Hn].
      - apply resolve_pin_ambiguous; assumption.
      - apply resolve_pin_duplicate; assumption. }
    split; [exact He |]. split.
    + intros. eapply connect_from_raises; eassumption.
    + intros. eapply connect_to_raises; eassumption.
  - intros Hone Hn i p Hi Hpi.
    assert (Hres : resolve_pin name connector pin = ok (p, true)).
    { eapply resolve_pin_label; try eassumption. lia. }
    split; [exact Hres |].
    intros from_name to_name from_to.
    rewrite (check_endpoint_registered _ _ _ _ _ _ _ Hc), Hres. reflexivity.
Qed.

Lemma connect_pin_label_resolution_witness :
  connect scenario_labels (Some "X5") (PStr "A") "W1" (PStr "RD")
          (Some "X2") (PInt 1)
  = raise (Exception "X5:A is defined more than once.")
  /\ resolve_pin "X1" X1 (PStr "VCC") = ok (PInt 2, true).
Proof.
  split.
  - apply (connect_pin_label_resolution scenario_labels "X5" X5 (PStr "A"));
      [reflexivity | reflexivity | vm_compute; lia].
  - apply (connect_pin_label_resolution scenario_labels "X1" X1 (PStr "VCC")
             eq_refl eq_refl) with (i := 1%nat);
      [reflexivity | vm_compute; intros [? ?]; discriminate
      | reflexivity | reflexivity].
Defined.

(** C6: in [connect], a pin reference that is neither a pin id nor a pin
    label of a registered connector raises an exception whose text is the
    connector's designator, a colon, the reference and " not found.", at
    the from endpoint and, once the from endpoint has passed, at the to
    endpoint. *)
Theorem connect_pin_not_found self name connector pin :
  dict_get name (Harness.connectors self) = Some connector ->
  py_in pin (Connector.pins connector) = false ->
  py_in pin (Connector.pinlabels connector) = false ->
  let e := Exception (name ++ ":" ++ py_str pin ++ " not found.") in
  (forall via_name via_wire to_name to_pin,
     connect self (Some name) pin via_name via_wire to_name to_pin = raise e)
  /\ (forall from_name from_pin via_name via_wire from_to,
        check_endpoint self from_name (Some name) from_name from_pin
          (from_pin, pin) = ok from_to ->
        connect self from_name from_pin via_name via_wire (Some name) pin
        = raise e).
Proof.
  intros Hc Hp Hl e.
  pose proof (resolve_pin_not_found name connector pin Hp Hl) as He.
  split.
  - intros. eapply connect_from_raises; eassumption.
  - intros. eapply connect_to_raises; eassumption.
Qed.

Lemma connect_pin_not_found_witness :
  connect scenario (Some "X1") (PStr "BOGUS") "W1" (PStr "RD")
          (Some "X2") (PInt 1)
  = raise (Exception "X1:BOGUS not found.").
Proof.
  apply (connect_pin_not_found scenario "X1" X1 (PStr "BOGUS"));
    reflexivity.
Defined.

(** The first end-to-end scenario of section 8: the label ["GND"] and the
    color ["RD"] resolve to pin 1 and wire 1, one connection is recorded,
    and the two pins are active on the right and on the left. *)
Example connect_end_to_end :
  exists self',
    connect scenario (Some "X1") (PStr "GND") "W1" (PStr "RD")
            (Some "X2") (PInt 1) = ok self'
    /\ connections self' "W1"
       = [mkConnection (Some (mkPinRef "X1" (PInt 1))) (PInt 1)
                       (Some (mkPinRef "X2" (PInt 1)))]
    /\ pin_activations self' "X1" (PInt 1) = [(RIGHT, true)]
    /\ pin_activations self' "X2" (PInt 1) = [(LEFT, true)].
Proof.
  eexists. split; [vm_compute; reflexivity |]. repeat split.
Qed.

(** ** Activation of pins and recording of connections *)

Lemma activate_pin_of_spec self n pin side is_connection p :
  pin_obj self n pin = Some p ->
  exists self',
    activate_pin_of self n pin side is_connection = ok self'
    /\ Harness.cables self' = Harness.cables self
    /\ Harness.mates self' = Harness.mates self
    /\ Harness.bom self' = Harness.bom self
    /\ forall n' pin',
         pin_obj self' n' pin'
         = if decide (n' = n /\ pin' = pin)
           then Some (PinClass.activate side is_connection p)
           else pin_obj self n' pin'.
Proof.
  unfold pin_obj. intros H.
  destruct (dict_get n (Harness.connectors self)) as [c|] eqn:Hc;
    simpl in H; [|discriminate].
  unfold activate_pin_of, getitem_str. rewrite Hc, bind_ok.
  unfold Connector.activate_pin, getitem. rewrite H, !bind_ok.
  eexists. split; [reflexivity |]. repeat split.
  intros n' pin'. simpl.
  destruct (decide (n' = n /\ pin' = pin)) as [[-> ->]|Hne].
  - rewrite dict_get_set_eq. simpl. apply dict_get_set_eq.
  - destruct (decide (n = n')) as [<-|Hn].
    + rewrite dict_get_set_eq, Hc. simpl.
      apply dict_get_set_ne. intros ->. apply Hne. split; reflexivity.
    + rewrite dict_get_set_ne by exact Hn. reflexivity.
Qed.

Lemma pin_obj_set_cables self cs n pin :
  pin_obj (Harness.set_cables self cs) n pin = pin_obj self n pin.
Proof. reflexivity. Qed.

Lemma pin_obj_set_mates self ms n pin :
  pin_obj (Harness.set_mates self ms) n pin = pin_obj self n pin.
Proof. reflexivity. Qed.

Lemma pin_obj_contains self n pin p :
  pin_obj self n pin = Some p ->
  dict_contains n (Harness.connectors self) = true.
Proof.
  unfold pin_obj, dict_contains.
  destruct (dict_get n (Harness.connectors self)); [reflexivity | discriminate].
Qed.

Lemma lookup_pin_obj_ok self n pin p :
  pin_obj self n pin = Some p ->
  lookup_pin_obj self (Some n) pin = ok (Some (mkPinRef n pin)).
Proof.
  unfold pin_obj, lookup_pin_obj, getitem_str, getitem.
  destruct (dict_get n (Harness.connectors self)) as [c|]; simpl;
    [|discriminate].
  intros ->. reflexivity.
Qed.

Lemma lookup_pin_obj_exists self name pin :
  endpoint_exists self name pin ->
  lookup_pin_obj self name pin = ok (endpoint_ref name pin).
Proof.
  destruct name as [n|]; simpl; [|reflexivity].
  intros [p Hp]. eapply lookup_pin_obj_ok. exact Hp.
Qed.

Lemma activate_if_known_exists self name pin side :
  endpoint_exists self name pin ->
  exists self',
    activate_if_known self name pin side = ok self'
    /\ Harness.cables self' = Harness.cables self
    /\ forall name' pin',
         endpoint_exists self name' pin' -> endpoint_exists self' name' pin'.
Proof.
  destruct name as [n|]; simpl.
  - intros [p Hp]. rewrite (pin_obj_contains _ _ _ _ Hp).
    destruct (activate_pin_of_spec self n pin side
                Connector.default_is_connection p Hp)
      as (self' & Hrun & Hcab & _ & _ & Hobj).
    exists self'. split; [exact Hrun |]. split; [exact Hcab |].
    intros [n'|] pin'; simpl; [|trivial].
    rewrite Hobj. destruct (decide (n' = n /\ pin' = pin)); [eauto | trivial].
  - intros _. exists self. repeat split; trivial.
Qed.

Lemma perform_connection_records self from_name from_pin via_name via_wire
    to_name to_pin cable :
  endpoint_exists self from_name from_pin ->
  endpoint_exists self to_name to_pin ->
  dict_get via_name (Harness.cables self) = Some cable ->
  exists self',
    perform_connection self from_name from_pin via_name via_wire to_name to_pin
    = ok self'
    /\ connections self' via_name
       = (Cable._connections cable
          ++ [mkConnection (endpoint_ref from_name from_pin) via_wire
                           (endpoint_ref to_name to_pin)])%list.
Proof.
  intros Hfrom Hto Hcable. unfold perform_connection, perform_connection_with.
  rewrite (lookup_pin_obj_exists _ _ _ Hfrom), bind_ok.
  rewrite (lookup_pin_obj_exists _ _ _ Hto), bind_ok.
  unfold getitem_str. rewrite Hcable, bind_ok.
  unfold Cable._connect. rewrite bind_ok.
  set (self1 := Harness.set_cables self _).
  assert (Hfrom1 : endpoint_exists self1 from_name from_pin).
  { destruct from_name; exact Hfrom. }
  assert (Hto1 : endpoint_exists self1 to_name to_pin).
  { destruct to_name; exact Hto. }
  destruct (activate_if_known_exists self1 from_name from_pin RIGHT Hfrom1)
    as (self2 & Hrun2 & Hcab2 & Hkeep2).
  rewrite Hrun2, bind_ok.
  destruct (activate_if_known_exists self2 to_name to_pin LEFT
              (Hkeep2 _ _ Hto1))
    as (self3 & Hrun3 & Hcab3 & _).
  exists self3. split; [exact Hrun3 |].
  unfold connections. rewrite Hcab3, Hcab2. unfold self1. simpl.
  rewrite dict_get_set_eq. reflexivity.
Qed.

(** ** Claims on wire references and on endpoints sharing a connector *)







(** C10, as the code has it: when both endpoints name the same registered
    connector and [from_pin] resolves through a pin label to the pin id
    [p], the from iteration leaves [p] in both [from_pin] and [to_pin].  The
    to iteration still resolves the caller's [to_pin]: an exception there is
    the exception of [connect]; a [to_pin] that resolves through a label to
    [q] overwrites both variables again, with [q]; otherwise both stay [p].
    The connection is recorded between that one pin and itself. *)
Theorem connect_same_connector_endpoints self n c from_pin p to_pin :
  dict_get n (Harness.connectors self) = Some c ->
  resolve_pin n c from_pin = ok (p, true) ->
  check_endpoint self (Some n) (Some n) (Some n) from_pin (from_pin, to_pin)
  = ok (p, p)
  /\ check_endpoints self (Some n) from_pin (Some n) to_pin
     = ('(q, mapped) ← resolve_pin n c to_pin;
        ok (if mapped : bool then (q, q) else (p, p)))
  /\ (forall e via_name via_wire,
        resolve_pin n c to_pin = raise e ->
        connect self (Some n) from_pin via_name via_wire (Some n) to_pin
        = raise e)
  /\ (forall q mapped via_name via_wire w cable,
        resolve_pin n c to_pin = ok (q, mapped) ->
        resolve_via_wire self via_name via_wire = ok w ->
        dict_get via_name (Harness.cables self) = Some cable ->
        let x := if mapped : bool then q else p in
        is_Some (pin_obj self n x) ->
        exists self',
          connect self (Some n) from_pin via_name via_wire (Some n) to_pin
          = ok self'
          /\ connections self' via_name
             = (Cable._connections cable
                ++ [mkConnection (Some (mkPinRef n x)) w
                                 (Some (mkPinRef n x))])%list).
Proof.
  intros Hc Hres.
  assert (H1 : check_endpoint self (Some n) (Some n) (Some n) from_pin
                 (from_pin, to_pin) = ok (p, p)).
  { rewrite (check_endpoint_registered _ _ _ _ _ _ _ Hc), Hres, bind_ok.
    rewrite bool_decide_eq_true_2 by reflexivity. reflexivity. }
  assert (H2 : check_endpoints self (Some n) from_pin (Some n) to_pin
     = ('(q, mapped) ← resolve_pin n c to_pin;
        ok (if mapped : bool then (q, q) else (p, p)))).
  { unfold check_endpoints. rewrite H1, bind_ok.
    rewrite (check_endpoint_registered _ _ _ _ _ _ _ Hc).
    destruct (resolve_pin n c to_pin) as [e|[q mapped]]; [reflexivity |].
    rewrite !bind_ok, bool_decide_eq_true_2 by reflexivity.
    destruct mapped; reflexivity. }
  split; [exact H1 |]. split; [exact H2 |]. split.
  - intros e via_name via_wire He. unfold connect, connect_with; fold perform_connection. rewrite H2, He.
    reflexivity.
  - intros q mapped via_name via_wire w cable Hto Hw Hcable x Hx.
    unfold connect, connect_with; fold perform_connection. rewrite H2, Hto, bind_ok. cbv beta iota.
    assert (Hxx : ok (if mapped then (q, q) else (p, p)) = ok (x, x)).
    { subst x. destruct mapped; reflexivity. }
    rewrite Hxx, bind_ok, Hw, bind_ok.
    apply (perform_connection_records self (Some n) x via_name w (Some n) x
             cable Hx Hx Hcable).
Qed.

Lemma connect_same_connector_endpoints_witness :
  check_endpoint scenario (Some "X1") (Some "X1") (Some "X1") (PStr "GND")
    (PStr "GND", PInt 2) = ok (PInt 1, PInt 1).
Proof.
  apply (connect_same_connector_endpoints scenario "X1" X1 (PStr "GND")
           (PInt 1) (PInt 2));
    reflexivity.
Defined.

(** Against C10 as stated: with the label ["VCC"] as [to_pin], both recorded
    endpoints are pin [2], the to pin, and not pin [1], the pin that the
    from reference ["GND"] resolves to. *)
Lemma connect_same_connector_counterexample :
  resolve_pin "X1" X1 (PStr "GND") = ok (PInt 1, true)
  /\ exists self',
       connect scenario (Some "X1") (PStr "GND") "W1" (PInt 1)
               (Some "X1") (PStr "VCC") = ok self'
       /\ recorded_endpoints self' "W1"
          = Some (Some (mkPinRef "X1" (PInt 2)), Some (mkPinRef "X1" (PInt 2)))
       /\ recorded_endpoints self' "W1"
          ≠ Some (Some (mkPinRef "X1" (PInt 1)), Some (mkPinRef "X1" (PInt 1))).
Proof.
  split; [reflexivity |].
  eexists. split; [vm_compute; reflexivity |].
  split; [reflexivity | vm_compute; discriminate].
Qed.

(** ** Claim on pin-level mates *)

Lemma pin_obj_Some self n pin p :
  pin_obj self n pin = Some p ->
  exists c, dict_get n (Harness.connectors self) = Some c
            /\ dict_get pin (Connector.pin_objects c) = Some p.
Proof.
  unfold pin_obj.
  destruct (dict_get n (Harness.connectors self)) as [c|]; simpl;
    [eauto | discriminate].
Qed.

Lemma pin_activations_obj self n pin p :
  pin_obj self n pin = Some p ->
  pin_activations self n pin = PinClass.activations p.
Proof. unfold pin_activations. intros ->. reflexivity. Qed.

Section MateClaims.
Variable parse_arrow_str : string -> Result ArrowDirection.

(** C1, as the code has it: [add_mate_pin] uses both pin references as
    they are, as keys of [pin_objects]; a reference that is no key raises
    [KeyError], whatever the pin labels are.  When both pin objects exist
    and the arrow parses, a pin-level mate between the two references is
    appended, and both pins are activated with [is_connection = False],
    the source on the right, then the destination on the left. *)
Theorem add_mate_pin_by_pin_id self from_name from_pin to_name to_pin
    arrow_str :
  (forall from_con,
     dict_get from_name (Harness.connectors self) = Some from_con ->
     dict_get from_pin (Connector.pin_objects from_con) = None ->
     add_mate_pin parse_arrow_str self from_name from_pin to_name to_pin
       arrow_str = raise (KeyError from_pin))
  /\ (forall from_obj to_con,
        pin_obj self from_name from_pin = Some from_obj ->
        dict_get to_name (Harness.connectors self) = Some to_con ->
        dict_get to_pin (Connector.pin_objects to_con) = None ->
        add_mate_pin parse_arrow_str self from_name from_pin to_name to_pin
          arrow_str = raise (KeyError to_pin))
  /\ (forall from_obj to_obj dir,
        pin_obj self from_name from_pin = Some from_obj ->
        pin_obj self to_name to_pin = Some to_obj ->
        parse_arrow_str arrow_str = ok dir ->
        let same := to_name = from_name /\ to_pin = from_pin in
        exists self',
          add_mate_pin parse_arrow_str self from_name from_pin to_name to_pin
            arrow_str = ok self'
          /\ Harness.mates self'
             = (Harness.mates self
                ++ [MatePin (mkPinRef from_name from_pin)
                            (mkPinRef to_name to_pin)
                            (mkArrow dir SINGLE)])%list
          /\ pin_activations self' from_name from_pin
             = ((if decide same then [(LEFT, false)] else [])
                ++ (RIGHT, false) :: pin_activations self from_name from_pin)%list
          /\ pin_activations self' to_name to_pin
             = ((LEFT, false)
                :: (if decide same then [(RIGHT, false)] else [])
                ++ pin_activations self to_name to_pin)%list).
Proof.
  split; [|split].
  - intros from_con Hc Hp. unfold add_mate_pin, getitem_str, getitem.
    rewrite Hc, bind_ok, Hp. reflexivity.
  - intros from_obj to_con Hfrom Hc Hp.
    destruct (pin_obj_Some _ _ _ _ Hfrom) as (fc & Hfc & Hfp).
    unfold add_mate_pin, getitem_str, getitem.
    rewrite Hfc, bind_ok, Hfp, bind_ok, Hc, bind_ok, Hp. reflexivity.
  - intros from_obj to_obj dir Hfrom Hto Hdir same.
    destruct (pin_obj_Some _ _ _ _ Hfrom) as (fc & Hfc & Hfp).
    destruct (pin_obj_Some _ _ _ _ Hto) as (tc & Htc & Htp).
    unfold add_mate_pin, getitem_str, getitem.
    rewrite Hfc, bind_ok, Hfp, bind_ok, Htc, bind_ok, Htp, bind_ok.
    rewrite Hdir, bind_ok. cbv zeta.
    set (self1 := Harness.set_mates self _).
    destruct (activate_pin_of_spec self1 from_name from_pin RIGHT false
                from_obj Hfrom)
      as (self2 & Hrun2 & _ & Hmates2 & _ & Hobj2).
    rewrite Hrun2, bind_ok.
    assert (Hto2 : pin_obj self2 to_name to_pin
                   = Some (if decide same
                           then PinClass.activate RIGHT false from_obj
                           else to_obj)).
    { rewrite Hobj2. unfold self1. rewrite pin_obj_set_mates.
      subst same. destruct (decide _); [reflexivity | exact Hto]. }
    destruct (activate_pin_of_spec self2 to_name to_pin LEFT false _ Hto2)
      as (self3 & Hrun3 & _ & Hmates3 & _ & Hobj3).
    exists self3. split; [exact Hrun3 |].
    split; [rewrite Hmates3, Hmates2; reflexivity |].
    assert (Hold_from : pin_activations self from_name from_pin
                        = PinClass.activations from_obj)
      by (apply pin_activations_obj; exact Hfrom).
    assert (Hold_to : pin_activations self to_name to_pin
                      = PinClass.activations to_obj)
      by (apply pin_activations_obj; exact Hto).
    rewrite Hold_from, Hold_to.
    split.
    + unfold pin_activations. rewrite Hobj3.
      destruct (decide (from_name = to_name /\ from_pin = to_pin))
        as [[E1 E2]|Hne].
      * subst to_name to_pin.
        destruct (decide same) as [_|Hn];
          [reflexivity | exfalso; apply Hn; split; reflexivity].
      * rewrite Hobj2.
        destruct (decide (from_name = from_name /\ from_pin = from_pin))
          as [_|Hn]; [|exfalso; apply Hn; split; reflexivity].
        destruct (decide same) as [[E1 E2]|_]; [|reflexivity].
        exfalso. apply Hne. split; congruence.
    + unfold pin_activations. rewrite Hobj3.
      destruct (decide (to_name = to_name /\ to_pin = to_pin))
        as [_|Hn]; [|exfalso; apply Hn; split; reflexivity].
      destruct (decide same) as [[E1 E2]|_]; [|reflexivity].
      subst to_name to_pin.
      assert (to_obj = from_obj) by congruence. subst to_obj.
      reflexivity.
Qed.
End MateClaims.

Lemma add_mate_pin_by_pin_id_witness :
  exists self',
    add_mate_pin example_parse_arrow_str scenario "X1" (PInt 1) "X2" (PInt 1)
      "->" = ok self'
    /\ Harness.mates self'
       = [MatePin (mkPinRef "X1" (PInt 1)) (mkPinRef "X2" (PInt 1))
                  (mkArrow FORWARD SINGLE)]
    /\ pin_activations self' "X1" (PInt 1) = [(RIGHT, false)]
    /\ pin_activations self' "X2" (PInt 1) = [(LEFT, false)].
Proof.
  destruct (proj2 (proj2 (add_mate_pin_by_pin_id example_parse_arrow_str
                            scenario "X1" (PInt 1) "X2" (PInt 1) "->"))
              _ _ FORWARD eq_refl eq_refl eq_refl)
    as (self' & Hrun & Hmates & Hfrom & Hto).
  exists self'. repeat split; assumption.
Defined.

(** Against C1 as stated: the label ["GND"], which the resolution of
    [connect] maps to pin [1] of [X1], is not resolved for a mate; the call
    raises [KeyError]. *)
Lemma add_mate_pin_label_counterexample :
  resolve_pin "X1" X1 (PStr "GND") = ok (PInt 1, true)
  /\ add_mate_pin example_parse_arrow_str scenario "X1" (PStr "GND")
       "X2" (PInt 1) "->" = raise (KeyError (PStr "GND"))
  /\ ~ (exists self',
          add_mate_pin example_parse_arrow_str scenario "X1" (PStr "GND")
            "X2" (PInt 1) "->" = ok self').
Proof.
  split; [reflexivity |]. split; [reflexivity |].
  intros [self' H]. vm_compute in H. discriminate H.
Qed.

(** ** The BOM mapping under a sequence of additions *)

Section BomFacts.
Variable AUTOGENERATED_PREFIX : string.

Lemma _add_lookup hash qty designator category
    (bom : gmap BomHash bom_entry.t) (k : BomHash) :
  _add AUTOGENERATED_PREFIX hash qty designator category bom !! k
  = if decide (hash = k)
    then Some (_add_entry AUTOGENERATED_PREFIX qty designator category
                 (default bom_entry.empty (bom !! hash)))
    else bom !! k.
Proof. unfold _add. apply lookup_insert. Qed.

Lemma add_all_cons c calls (bom : gmap BomHash bom_entry.t) :
  add_all AUTOGENERATED_PREFIX (c :: calls) bom
  = add_all AUTOGENERATED_PREFIX calls (run_call AUTOGENERATED_PREFIX bom c).
Proof. reflexivity. Qed.

Lemma add_all_app calls1 calls2 (bom : gmap BomHash bom_entry.t) :
  add_all AUTOGENERATED_PREFIX (calls1 ++ calls2) bom
  = add_all AUTOGENERATED_PREFIX calls2
      (add_all AUTOGENERATED_PREFIX calls1 bom).
Proof. unfold add_all. apply foldl_app. Qed.

Lemma add_all_lookup calls (bom : gmap BomHash bom_entry.t) (k : BomHash) :
  add_all AUTOGENERATED_PREFIX calls bom !! k
  = merged AUTOGENERATED_PREFIX k calls (bom !! k).
Proof.
  revert bom. induction calls as [|c calls IH]; intros bom; [reflexivity |].
  rewrite add_all_cons, IH. simpl. f_equal.
  unfold run_call. rewrite _add_lookup.
  destruct (decide (call_hash c = k)) as [->|]; reflexivity.
Qed.

Lemma add_designators_union l (s : gset string) :
  add_designators AUTOGENERATED_PREFIX l s
  = s ∪ visible_set AUTOGENERATED_PREFIX l.
Proof.
  unfold add_designators, visible_set.
  revert s. induction l as [|d l IH]; intros s; simpl.
  - set_solver.
  - rewrite IH, filter_cons.
    destruct (visible_designator AUTOGENERATED_PREFIX d) eqn:E.
    + rewrite decide_True by reflexivity. set_solver.
    + rewrite decide_False by discriminate. reflexivity.
Qed.

Lemma elem_of_visible_set d l :
  d ∈ visible_set AUTOGENERATED_PREFIX l ->
  visible_designator AUTOGENERATED_PREFIX d = true.
Proof.
  unfold visible_set. rewrite elem_of_list_to_set.
  intros H. apply list_elem_of_filter in H. tauto.
Qed.

Lemma elem_of_calls_designators d k calls :
  d ∈ calls_designators AUTOGENERATED_PREFIX k calls ->
  visible_designator AUTOGENERATED_PREFIX d = true.
Proof.
  induction calls as [|c calls IH]; simpl.
  - intros H. set_solver.
  - rewrite elem_of_union. intros [H|H]; [|exact (IH H)].
    destruct (decide (call_hash c = k)); [|set_solver].
    eapply elem_of_visible_set. exact H.
Qed.

Lemma entry_qty_default (o : option bom_entry.t) :
  match bom_entry.qty (default bom_entry.empty o) with
  | None => 0%Z
  | Some q => q
  end = entry_qty o.
Proof. destruct o as [[[q|] ds cat]|]; reflexivity. Qed.

Lemma entry_designators_default (o : option bom_entry.t) :
  match bom_entry.designators (default bom_entry.empty o) with
  | None => ∅
  | Some ds => ds
  end = entry_designators o.
Proof. destruct o as [[q [ds|] cat]|]; reflexivity. Qed.

Lemma entry_qty_Some q ds cat :
  entry_qty (Some (bom_entry.mk (Some q) ds cat)) = q.
Proof. reflexivity. Qed.

Lemma entry_designators_Some q ds cat :
  entry_designators (Some (bom_entry.mk q (Some ds) cat)) = ds.
Proof. reflexivity. Qed.

Lemma untouched_qty k calls : touched k calls = false -> calls_qty k calls = 0%Z.
Proof.
  induction calls as [|c calls IH]; simpl; [reflexivity |].
  intros H. apply orb_false_iff in H as [Hc Hrest].
  apply bool_decide_eq_false in Hc.
  rewrite decide_False by exact Hc. rewrite (IH Hrest). reflexivity.
Qed.

Lemma untouched_designators k calls :
  touched k calls = false ->
  calls_designators AUTOGENERATED_PREFIX k calls = ∅.
Proof.
  induction calls as [|c calls IH]; simpl; [reflexivity |].
  intros H. apply orb_false_iff in H as [Hc Hrest].
  apply bool_decide_eq_false in Hc.
  rewrite decide_False by exact Hc. rewrite (IH Hrest). set_solver.
Qed.

Lemma merged_untouched k calls o :
  touched k calls = false -> merged AUTOGENERATED_PREFIX k calls o = o.
Proof.
  revert o. induction calls as [|c calls IH]; intros o; simpl; [reflexivity |].
  intros H. apply orb_false_iff in H as [Hc Hrest].
  apply bool_decide_eq_false in Hc.
  rewrite decide_False by exact Hc. apply IH. exact Hrest.
Qed.

(** An entry that some call touched: its quantity is the old quantity
    plus the quantities of the calls, its designator set the old set
    united with the visible designators of the calls, its category that
    of the last call. *)
Lemma merged_touched k calls o :
  touched k calls = true ->
  merged AUTOGENERATED_PREFIX k calls o
  = Some (bom_entry.mk
            (Some (entry_qty o + calls_qty k calls)%Z)
            (Some (entry_designators o
                   ∪ calls_designators AUTOGENERATED_PREFIX k calls))
            (Some (calls_category k calls))).
Proof.
  revert o. induction calls as [|c calls IH]; intros o; simpl;
    [discriminate |].
  intros H.
  destruct (decide (call_hash c = k)) as [Hk|Hk].
  - destruct (touched k calls) eqn:Ht.
    + rewrite IH by reflexivity. unfold _add_entry.
      rewrite entry_qty_default, entry_designators_default.
      rewrite add_designators_union, entry_qty_Some, entry_designators_Some.
      f_equal. f_equal; f_equal; first [lia | set_solver].
    + rewrite merged_untouched by exact Ht.
      rewrite untouched_qty, untouched_designators by exact Ht.
      unfold _add_entry.
      rewrite entry_qty_default, entry_designators_default.
      rewrite add_designators_union.
      f_equal. f_equal; f_equal; first [lia | set_solver].
  - apply orb_true_iff in H as [Hc|Ht];
      [apply bool_decide_eq_true in Hc; contradiction |].
    rewrite IH by exact Ht. rewrite Ht.
    f_equal. f_equal; f_equal; first [lia | set_solver].
Qed.

Lemma merged_qty k calls o :
  entry_qty (merged AUTOGENERATED_PREFIX k calls o)
  = (entry_qty o + calls_qty k calls)%Z.
Proof.
  destruct (touched k calls) eqn:Ht.
  - rewrite merged_touched by exact Ht. reflexivity.
  - rewrite merged_untouched, untouched_qty by exact Ht. lia.
Qed.

Lemma merged_designators k calls o :
  entry_designators (merged AUTOGENERATED_PREFIX k calls o)
  = entry_designators o ∪ calls_designators AUTOGENERATED_PREFIX k calls.
Proof.
  destruct (touched k calls) eqn:Ht.
  - rewrite merged_touched by exact Ht. reflexivity.
  - rewrite merged_untouched, untouched_designators by exact Ht. set_solver.
Qed.

Lemma calls_qty_Permutation k calls calls' :
  calls ≡ₚ calls' -> calls_qty k calls = calls_qty k calls'.
Proof.
  induction 1 as [|c l l' _ IH|c1 c2 l|l1 l2 l3 _ IH1 _ IH2]; simpl;
    [reflexivity | rewrite IH; reflexivity | lia | congruence].
Qed.

Lemma calls_designators_Permutation k calls calls' :
  calls ≡ₚ calls' ->
  calls_designators AUTOGENERATED_PREFIX k calls
  = calls_designators AUTOGENERATED_PREFIX k calls'.
Proof.
  induction 1 as [|c l l' _ IH|c1 c2 l|l1 l2 l3 _ IH1 _ IH2]; simpl;
    [reflexivity | rewrite IH; reflexivity | set_solver | congruence].
Qed.
End BomFacts.

Lemma for_each_app3 {A S} (f : A -> S -> Result S) l1 l2 l3 s :
  for_each f (l1 ++ l2 ++ l3) s
  = (s ← for_each f l1 s; s ← for_each f l2 s; for_each f l3 s).
Proof.
  rewrite for_each_app.
  destruct (for_each f l1 s) as [e|s1]; [reflexivity |].
  rewrite !bind_ok. apply for_each_app.
Qed.

(** ** From items to calls of [_add] *)

Section ItemFacts.
Variable AUTOGENERATED_PREFIX : string.

Lemma add_additional_components_calls cat designator comps
    (bom : gmap BomHash bom_entry.t) :
  add_additional_components AUTOGENERATED_PREFIX cat designator comps bom
  = add_all AUTOGENERATED_PREFIX (additional_calls cat designator comps) bom.
Proof.
  unfold add_additional_components, additional_calls.
  revert bom. induction comps as [|comp comps IH]; intros bom;
    [reflexivity |].
  rewrite filter_cons. simpl.
  destruct (AdditionalComponent.ignore_in_bom comp) eqn:E.
  - rewrite decide_False by discriminate. apply IH.
  - rewrite decide_True by reflexivity. rewrite fmap_cons, add_all_cons.
    apply IH.
Qed.

Lemma wire_loop_calls qty designator cat ws
    (bom : gmap BomHash bom_entry.t) :
  foldl (fun bom subitem =>
           _add AUTOGENERATED_PREFIX (WireClass.bom_hash subitem)
                qty (DOne designator) (PStr cat) bom)
        bom ws
  = add_all AUTOGENERATED_PREFIX
      ((fun subitem => mkAddCall (WireClass.bom_hash subitem)
                         qty (DOne designator) (PStr cat)) <$> ws)
      bom.
Proof.
  revert bom. induction ws as [|w ws IH]; intros bom; [reflexivity |].
  rewrite fmap_cons, add_all_cons. apply IH.
Qed.

Lemma _add_to_internal_bom_calls item (bom : gmap BomHash bom_entry.t) :
  _add_to_internal_bom AUTOGENERATED_PREFIX item bom
  = (fun calls => add_all AUTOGENERATED_PREFIX calls bom) <$> item_calls item.
Proof.
  unfold _add_to_internal_bom, item_calls.
  destruct (ignore_in_bom item); [reflexivity |].
  destruct item as [c|c|c|a|i repr].
  - destruct (decide (Connector.category c = PStr "bundle")); [reflexivity |].
    rewrite bind_ok, add_additional_components_calls. reflexivity.
  - destruct (decide (Cable.category c = PStr "bundle")).
    + rewrite add_additional_components_calls, wire_loop_calls.
      simpl. rewrite add_all_app. reflexivity.
    + rewrite add_additional_components_calls. reflexivity.
  - destruct (decide (TopLevelGraphicalComponent.category c = PStr "bundle")).
    + destruct (TopLevelGraphicalComponent.wire_objects c) as [ws|];
        [|reflexivity].
      rewrite !bind_ok, add_additional_components_calls, wire_loop_calls.
      simpl. rewrite add_all_app. reflexivity.
    + rewrite !bind_ok, add_additional_components_calls. reflexivity.
  - reflexivity.
  - reflexivity.
Qed.

Lemma for_each_calls items (bom : gmap BomHash bom_entry.t) :
  for_each (_add_to_internal_bom AUTOGENERATED_PREFIX) items bom
  = (fun calls => add_all AUTOGENERATED_PREFIX calls bom) <$> items_calls items.
Proof.
  revert bom. induction items as [|item items IH]; intros bom;
    [reflexivity |].
  simpl. rewrite _add_to_internal_bom_calls.
  destruct (item_calls item) as [e|cs]; [reflexivity |].
  simpl. rewrite IH.
  destruct (items_calls items) as [e|cs']; [reflexivity |].
  simpl. rewrite add_all_app. reflexivity.
Qed.

Lemma populate_bom_calls self :
  populate_bom AUTOGENERATED_PREFIX self
  = (fun calls =>
       Harness.set_bom self
         (add_all AUTOGENERATED_PREFIX calls (Harness.bom self)))
    <$> items_calls (harness_items self).
Proof.
  pose proof (for_each_calls (harness_items self) (Harness.bom self)) as H.
  unfold populate_bom. unfold harness_items in *.
  rewrite for_each_app3 in H. unfold raise, ok in *.
  destruct (items_calls _) as [e'|cs];
    destruct (for_each _ (AConnector <$> _) _) as [e|b1]; simpl in *;
    try discriminate H; try (injection H as ->; reflexivity);
    destruct (for_each _ (ACable <$> _) _) as [e|b2]; simpl in *;
    try discriminate H; try (injection H as ->; reflexivity);
    destruct (for_each _ (AnAdditionalComponent <$> _) _) as [e|b3];
    simpl in *;
    try discriminate H; injection H as ->; reflexivity.
Qed.
End ItemFacts.

Lemma items_calls_cons_ok item items calls :
  items_calls (item :: items) = ok calls ->
  exists cs cs', item_calls item = ok cs /\ items_calls items = ok cs'
                 /\ calls = (cs ++ cs')%list.
Proof.
  simpl. destruct (item_calls item) as [e|cs]; [discriminate |].
  destruct (items_calls items) as [e|cs']; [discriminate |].
  intros H. apply ok_inj in H. eauto.
Qed.

Lemma items_calls_Permutation items items' calls :
  items ≡ₚ items' ->
  items_calls items = ok calls ->
  exists calls', items_calls items' = ok calls' /\ calls ≡ₚ calls'.
Proof.
  intros Hperm. revert calls.
  induction Hperm as [|x l l' _ IH|x y l|l1 l2 l3 _ IH1 _ IH2]; intros calls H.
  - exists calls. split; [exact H | reflexivity].
  - destruct (items_calls_cons_ok _ _ _ H) as (cs & cs' & Hx & Hl & ->).
    destruct (IH _ Hl) as (cs'' & Hl' & Hp).
    exists (cs ++ cs'')%list. simpl. rewrite Hx, Hl'. split; [reflexivity |].
    apply Permutation_app_head. exact Hp.
  - destruct (items_calls_cons_ok _ _ _ H) as (cy & c1 & Hy & H1 & ->).
    destruct (items_calls_cons_ok _ _ _ H1) as (cx & cl & Hx & Hl & ->).
    exists (cx ++ cy ++ cl)%list. simpl. rewrite Hx, Hy, Hl.
    split; [reflexivity |]. apply Permutation_app_swap_app.
  - destruct (IH1 _ H) as (c2 & H2 & Hp12).
    destruct (IH2 _ H2) as (c3 & H3 & Hp23).
    exists c3. split; [exact H3 | etransitivity; eassumption].
Qed.

Lemma items_calls_elem item items calls :
  item ∈ items ->
  items_calls items = ok calls ->
  exists cs, item_calls item = ok cs /\ forall c, c ∈ cs -> c ∈ calls.
Proof.
  intros Hin. revert calls.
  induction items as [|x items IH]; intros calls H; [inversion Hin |].
  destruct (items_calls_cons_ok _ _ _ H) as (cs & cs' & Hx & Hl & ->).
  apply elem_of_cons in Hin as [->|Hin].
  - exists cs. split; [exact Hx |]. intros c Hc. apply elem_of_app. auto.
  - destruct (IH Hin _ Hl) as (cs0 & Hitem & Hsub).
    exists cs0. split; [exact Hitem |]. intros c Hc. apply elem_of_app. auto.
Qed.

(** ** The entries that a sequence of additions leaves *)

Lemma touched_iff k calls :
  touched k calls = true <-> exists c, c ∈ calls /\ call_hash c = k.
Proof.
  unfold touched. rewrite existsb_exists. split.
  - intros (c & Hin & Hc). exists c.
    split; [apply list_elem_of_In; exact Hin |].
    apply bool_decide_eq_true in Hc. exact Hc.
  - intros (c & Hin & Hc). exists c.
    split; [apply list_elem_of_In; exact Hin |].
    apply bool_decide_eq_true. exact Hc.
Qed.

Lemma touched_app k calls1 calls2 :
  touched k (calls1 ++ calls2) = touched k calls1 || touched k calls2.
Proof. unfold touched. apply existsb_app. Qed.

Lemma calls_qty_app k calls1 calls2 :
  calls_qty k (calls1 ++ calls2)
  = (calls_qty k calls1 + calls_qty k calls2)%Z.
Proof.
  induction calls1 as [|c calls1 IH]; simpl; [reflexivity |].
  rewrite IH. lia.
Qed.

Lemma calls_category_app_r k calls1 calls2 :
  touched k calls2 = true ->
  calls_category k (calls1 ++ calls2) = calls_category k calls2.
Proof.
  intros H. induction calls1 as [|c calls1 IH]; simpl; [reflexivity |].
  rewrite touched_app, H, orb_true_r. exact IH.
Qed.

Lemma calls_category_uniform k calls cat :
  touched k calls = true ->
  (forall c, c ∈ calls -> call_hash c = k -> call_category c = cat) ->
  calls_category k calls = cat.
Proof.
  induction calls as [|c calls IH]; simpl; [discriminate |].
  intros Ht Hall. destruct (touched k calls) eqn:E.
  - apply IH; [reflexivity |]. intros c' Hin. apply Hall. right. exact Hin.
  - rewrite orb_false_r in Ht. apply bool_decide_eq_true in Ht.
    apply Hall; [left | exact Ht].
Qed.

Lemma elem_of_designator_list designator d :
  d ∈ designator_list designator <-> carries designator d.
Proof.
  destruct designator as [|l|d']; simpl.
  - split; [intros H; inversion H | intros []].
  - reflexivity.
  - rewrite list_elem_of_singleton. split; congruence.
Qed.

Lemma visible_designator_true prefix d :
  visible_designator prefix d = true
  <-> d ≠ "" /\ String.prefix prefix d = false.
Proof.
  unfold visible_designator.
  rewrite andb_true_iff, !negb_true_iff, String.eqb_neq. reflexivity.
Qed.

Section EntryFacts.
Variable AUTOGENERATED_PREFIX : string.

Lemma calls_designators_app k calls1 calls2 :
  calls_designators AUTOGENERATED_PREFIX k (calls1 ++ calls2)
  = calls_designators AUTOGENERATED_PREFIX k calls1
    ∪ calls_designators AUTOGENERATED_PREFIX k calls2.
Proof.
  induction calls1 as [|c calls1 IH]; simpl; [set_solver |].
  rewrite IH. set_solver.
Qed.

Lemma elem_of_visible_set_iff d l :
  d ∈ visible_set AUTOGENERATED_PREFIX l
  <-> d ∈ l /\ visible_designator AUTOGENERATED_PREFIX d = true.
Proof.
  unfold visible_set. rewrite elem_of_list_to_set, list_elem_of_filter.
  tauto.
Qed.

(** The designators that the calls keyed by [k] let into the set, read off
    the calls themselves. *)
Lemma elem_of_calls_designators_iff k calls d :
  d ∈ calls_designators AUTOGENERATED_PREFIX k calls
  <-> (d ≠ "" /\ String.prefix AUTOGENERATED_PREFIX d = false)
      /\ exists c, c ∈ calls /\ call_hash c = k
                   /\ carries (call_designator c) d.
Proof.
  induction calls as [|c calls IH]; simpl.
  - split; [intros H; set_solver |].
    intros (_ & c & Hin & _). inversion Hin.
  - rewrite elem_of_union, IH. clear IH.
    destruct (decide (call_hash c = k)) as [Hk|Hk].
    + rewrite elem_of_visible_set_iff, elem_of_designator_list,
        visible_designator_true.
      split.
      * intros [[Hc Hv]|[Hv (c' & Hin & Hc' & Hcar)]].
        -- split; [exact Hv |]. exists c. split; [left | auto].
        -- split; [exact Hv |]. exists c'. split; [right; exact Hin | auto].
      * intros (Hv & c' & Hin & Hc' & Hcar).
        apply elem_of_cons in Hin as [->|Hin]; [left; auto |].
        right. split; [exact Hv |]. exists c'. auto.
    + split.
      * intros [H|[Hv (c' & Hin & Hc' & Hcar)]]; [set_solver |].
        split; [exact Hv |]. exists c'. split; [right; exact Hin | auto].
      * intros (Hv & c' & Hin & Hc' & Hcar).
        apply elem_of_cons in Hin as [->|Hin]; [contradiction |].
        right. split; [exact Hv |]. exists c'. auto.
Qed.

Lemma add_all_category k calls (bom : gmap BomHash bom_entry.t) :
  touched k calls = true ->
  bom_entry.category <$> (add_all AUTOGENERATED_PREFIX calls bom !! k)
  = Some (Some (calls_category k calls)).
Proof.
  intros H. rewrite add_all_lookup, merged_touched by exact H. reflexivity.
Qed.

Lemma add_all_untouched k calls (bom : gmap BomHash bom_entry.t) :
  touched k calls = false ->
  add_all AUTOGENERATED_PREFIX calls bom !! k = bom !! k.
Proof.
  intros H. rewrite add_all_lookup. apply merged_untouched. exact H.
Qed.
End EntryFacts.

(** The additions for the additional components of an item. *)
Lemma elem_of_additional_calls cat designator comps c :
  c ∈ additional_calls cat designator comps <->
  exists comp,
    comp ∈ comps /\ AdditionalComponent.ignore_in_bom comp = false
    /\ c = mkAddCall (AdditionalComponent.bom_hash comp)
                     (AdditionalComponent.bom_qty comp)
                     (DOne designator) (PStr (cat ++ "_additional")).
Proof.
  unfold additional_calls. rewrite list_elem_of_fmap. split.
  - intros (comp & -> & Hin). apply list_elem_of_filter in Hin as [Hi Hin].
    eauto.
  - intros (comp & Hin & Hi & ->). exists comp. split; [reflexivity |].
    apply list_elem_of_filter. auto.
Qed.

Lemma additional_calls_touched cat designator comps k :
  touched k (additional_calls cat designator comps) = true
  <-> has_additional k comps.
Proof.
  rewrite touched_iff. unfold has_additional. split.
  - intros (c & Hin & Hk). apply elem_of_additional_calls in Hin
      as (comp & Hin & Hi & ->). eauto.
  - intros (comp & Hin & Hi & Hk). eexists. split.
    + apply elem_of_additional_calls. eauto.
    + exact Hk.
Qed.

Lemma additional_calls_untouched cat designator comps k :
  ~ has_additional k comps ->
  touched k (additional_calls cat designator comps) = false.
Proof.
  intros H. destruct (touched k _) eqn:E; [|reflexivity].
  apply additional_calls_touched in E. contradiction.
Qed.

Lemma additional_calls_qty cat designator comps k :
  calls_qty k (additional_calls cat designator comps)
  = additional_qty k comps.
Proof.
  unfold additional_calls.
  induction comps as [|comp comps IH]; [reflexivity |].
  rewrite filter_cons. cbn [additional_qty].
  destruct (decide (AdditionalComponent.ignore_in_bom comp = false))
    as [E|E].
  - rewrite E, fmap_cons. cbn [calls_qty call_hash call_qty].
    rewrite IH. reflexivity.
  - apply not_false_is_true in E. rewrite E, IH. reflexivity.
Qed.

(** The additions for the wire objects of a bundle. *)
Lemma wires_with_hash_pos k ws :
  (0 < wires_with_hash k ws)%nat
  <-> exists w, w ∈ ws /\ WireClass.bom_hash w = k.
Proof.
  unfold wires_with_hash. split.
  - intros H. destruct (filter _ ws) as [|w l] eqn:E; [simpl in H; lia |].
    assert (Hin : w ∈ filter (fun w => WireClass.bom_hash w = k) ws)
      by (rewrite E; left).
    apply list_elem_of_filter in Hin as [Hk Hin]. eauto.
  - intros (w & Hin & Hk).
    assert (Hf : w ∈ filter (fun w => WireClass.bom_hash w = k) ws)
      by (apply list_elem_of_filter; auto).
    destruct (filter _ ws); [inversion Hf | simpl; lia].
Qed.

Lemma wire_additions_qty qty designator cat ws k :
  calls_qty k ((fun subitem => mkAddCall (WireClass.bom_hash subitem) qty
                                 (DOne designator) (PStr cat)) <$> ws)
  = (qty * Z.of_nat (wires_with_hash k ws))%Z.
Proof.
  unfold wires_with_hash.
  induction ws as [|w ws IH]; [simpl; lia |].
  rewrite filter_cons, fmap_cons. cbn [calls_qty call_hash call_qty].
  rewrite IH.
  destruct (decide (WireClass.bom_hash w = k)); cbn [length]; lia.
Qed.

Lemma wire_additions_touched qty designator cat ws k :
  touched k ((fun subitem => mkAddCall (WireClass.bom_hash subitem) qty
                               (DOne designator) (PStr cat)) <$> ws) = true
  <-> (0 < wires_with_hash k ws)%nat.
Proof.
  rewrite touched_iff, wires_with_hash_pos. split.
  - intros (c & Hin & Hk). apply list_elem_of_fmap in Hin as (w & -> & Hin).
    eauto.
  - intros (w & Hin & Hk). eexists. split.
    + apply list_elem_of_fmap. eauto.
    + exact Hk.
Qed.

(** The entries after the additions of one item: its own additions [own],
    all with the item's designator and category, followed by those for its
    additional components. *)
Section OneItem.
Variable AUTOGENERATED_PREFIX : string.

Lemma item_entries own cat des comps (bom : gmap BomHash bom_entry.t)
    (k : BomHash) :
  (forall c, c ∈ own ->
             call_designator c = DOne des /\ call_category c = PStr cat) ->
  let bom' := add_all AUTOGENERATED_PREFIX
                (own ++ additional_calls cat des comps) bom in
  entry_qty (bom' !! k)
  = (entry_qty (bom !! k) + calls_qty k own + additional_qty k comps)%Z
  /\ (forall d,
        d ∈ entry_designators (bom' !! k) <->
        d ∈ entry_designators (bom !! k)
        \/ (d = des /\ d ≠ ""
            /\ String.prefix AUTOGENERATED_PREFIX d = false
            /\ (touched k own = true \/ has_additional k comps)))
  /\ (touched k own = true -> ~ has_additional k comps ->
      bom_entry.category <$> (bom' !! k) = Some (Some (PStr cat)))
  /\ (has_additional k comps ->
      bom_entry.category <$> (bom' !! k)
      = Some (Some (PStr (cat ++ "_additional"))))
  /\ (touched k own = false -> ~ has_additional k comps ->
      bom' !! k = bom !! k).
Proof.
  intros Hown bom'. subst bom'. repeat split.
  - rewrite add_all_lookup, merged_qty, calls_qty_app, additional_calls_qty.
    lia.
  - rewrite add_all_lookup, merged_designators, elem_of_union,
      elem_of_calls_designators_iff.
    intros [H|((Hne & Hpre) & c & Hin & Hk & Hcar)]; [left; exact H | right].
    apply elem_of_app in Hin as [Hin|Hin].
    + destruct (Hown c Hin) as [Hd _]. rewrite Hd in Hcar. simpl in Hcar.
      repeat split; auto. left. apply touched_iff. eauto.
    + apply elem_of_additional_calls in Hin as (comp & Hin & Hi & ->).
      simpl in Hcar, Hk. repeat split; auto. right. exists comp. auto.
  - rewrite add_all_lookup, merged_designators, elem_of_union,
      elem_of_calls_designators_iff.
    intros [H|(-> & Hne & Hpre & Hsrc)]; [left; exact H | right].
    split; [split; assumption |].
    destruct Hsrc as [Ht|(comp & Hin & Hi & Hk)].
    + apply touched_iff in Ht as (c & Hin & Hk). exists c.
      split; [apply elem_of_app; left; exact Hin |]. split; [exact Hk |].
      destruct (Hown c Hin) as [Hd _]. rewrite Hd. reflexivity.
    + eexists. split.
      * apply elem_of_app. right. apply elem_of_additional_calls. eauto.
      * split; [exact Hk | reflexivity].
  - intros Ht Hno. rewrite add_all_category
      by (rewrite touched_app, Ht; reflexivity).
    do 2 f_equal. apply calls_category_uniform.
    + rewrite touched_app, Ht. reflexivity.
    + intros c Hin Hk. apply elem_of_app in Hin as [Hin|Hin].
      * apply (Hown c Hin).
      * exfalso. apply Hno.
        apply elem_of_additional_calls in Hin as (comp & Hin & Hi & ->).
        exists comp. auto.
  - intros Hadd.
    apply additional_calls_touched with (cat := cat) (designator := des)
      in Hadd.
    rewrite add_all_category
      by (rewrite touched_app, Hadd; apply orb_true_r).
    do 2 f_equal. rewrite calls_category_app_r by exact Hadd.
    apply calls_category_uniform; [exact Hadd |].
    intros c Hin _.
    apply elem_of_additional_calls in Hin as (comp & _ & _ & ->). reflexivity.
  - intros Ht Hno. apply add_all_untouched.
    rewrite touched_app, Ht.
    rewrite additional_calls_untouched by exact Hno. reflexivity.
Qed.
End OneItem.

(** ** Claims on the BOM aggregation *)

Section BomClaims.
Variable AUTOGENERATED_PREFIX : string.

(** C7: entries under one content hash accumulate.  After aggregating a
    list of items, the quantity under every hash is the former quantity
    plus the quantities of the additions made under that hash, and the
    designator set is the former set united with the designators of those
    additions: a designator is in the set afterwards exactly when it was in
    it before, or is non-empty, does not start with the autogenerated
    prefix and is the designator (or among the designators) of an addition
    made under the hash.  In particular the designator of a connector, or
    of a cable that is no bundle, enters the set under the item's hash.
    The result does not depend on the order of the items: aggregating any
    rearrangement of the list succeeds as well and leaves the same quantity
    and the same designator set under every hash. *)
Theorem bom_aggregation_additive_order_independent items items'
    (bom bom1 : gmap BomHash bom_entry.t) :
  items ≡ₚ items' ->
  for_each (_add_to_internal_bom AUTOGENERATED_PREFIX) items bom = ok bom1 ->
  exists (bom2 : gmap BomHash bom_entry.t) calls,
    for_each (_add_to_internal_bom AUTOGENERATED_PREFIX) items' bom = ok bom2
    /\ items_calls items = ok calls
    /\ (forall k : BomHash,
          entry_qty (bom1 !! k) = (entry_qty (bom !! k) + calls_qty k calls)%Z
          /\ (forall d,
                d ∈ entry_designators (bom1 !! k) <->
                d ∈ entry_designators (bom !! k)
                \/ ((d ≠ "" /\ String.prefix AUTOGENERATED_PREFIX d = false)
                    /\ exists c, c ∈ calls /\ call_hash c = k
                                 /\ carries (call_designator c) d))
          /\ entry_qty (bom2 !! k) = entry_qty (bom1 !! k)
          /\ entry_designators (bom2 !! k) = entry_designators (bom1 !! k))
    /\ (forall c : Connector.t,
          AConnector c ∈ items ->
          Connector.ignore_in_bom c = false ->
          Connector.designator c ≠ "" ->
          String.prefix AUTOGENERATED_PREFIX (Connector.designator c) = false ->
          Connector.designator c
            ∈ entry_designators (bom1 !! Connector.bom_hash c))
    /\ (forall c : Cable.t,
          ACable c ∈ items ->
          Cable.ignore_in_bom c = false ->
          Cable.category c ≠ PStr "bundle" ->
          Cable.designator c ≠ "" ->
          String.prefix AUTOGENERATED_PREFIX (Cable.designator c) = false ->
          Cable.designator c ∈ entry_designators (bom1 !! Cable.bom_hash c)).
Proof.
  intros Hperm Hrun. rewrite for_each_calls in Hrun.
  destruct (items_calls items) as [e|calls] eqn:Hcalls; [discriminate |].
  simpl in Hrun. apply ok_inj in Hrun. subst bom1.
  destruct (items_calls_Permutation _ _ _ Hperm Hcalls)
    as (calls' & Hcalls' & Hp).
  assert (Hdes : forall k d,
            d ∈ entry_designators
                  (add_all AUTOGENERATED_PREFIX calls bom !! k) <->
            d ∈ entry_designators (bom !! k)
            \/ ((d ≠ "" /\ String.prefix AUTOGENERATED_PREFIX d = false)
                /\ exists c, c ∈ calls /\ call_hash c = k
                             /\ carries (call_designator c) d)).
  { intros k d. rewrite add_all_lookup, merged_designators, elem_of_union,
      elem_of_calls_designators_iff. reflexivity. }
  exists (add_all AUTOGENERATED_PREFIX calls' bom), calls.
  split; [rewrite for_each_calls, Hcalls'; reflexivity |].
  split; [reflexivity |].
  split; [|split].
  - intros k. split; [|split; [exact (Hdes k) |]].
    + rewrite add_all_lookup, merged_qty. reflexivity.
    + rewrite !add_all_lookup, !merged_qty, !merged_designators.
      rewrite (calls_qty_Permutation _ _ _ Hp).
      rewrite (calls_designators_Permutation _ _ _ _ Hp).
      split; reflexivity.
  - intros c Hin Hign Hne Hpre.
    destruct (items_calls_elem _ _ _ Hin Hcalls) as (cs & Hitem & Hsub).
    unfold item_calls in Hitem. simpl in Hitem. rewrite Hign in Hitem.
    destruct (decide (Connector.category c = PStr "bundle"));
      [discriminate Hitem |].
    apply ok_inj in Hitem. subst cs.
    apply Hdes. right. split; [split; assumption |].
    eexists. split; [apply Hsub; left |]. split; reflexivity.
  - intros c Hin Hign Hcat Hne Hpre.
    destruct (items_calls_elem _ _ _ Hin Hcalls) as (cs & Hitem & Hsub).
    unfold item_calls in Hitem. simpl in Hitem. rewrite Hign in Hitem.
    rewrite decide_False in Hitem by exact Hcat.
    apply ok_inj in Hitem. subst cs.
    apply Hdes. right. split; [split; assumption |].
    eexists. split; [apply Hsub; left |]. split; reflexivity.
Qed.

(** C8: whatever the sequence of additions, a designator found in the
    designator set of an entry afterwards was in that entry's set before,
    or is non-empty and does not start with the autogenerated prefix. *)
Theorem autogenerated_designators_never_added calls
    (bom : gmap BomHash bom_entry.t) (k : BomHash) (d : string) :
  d ∈ entry_designators (add_all AUTOGENERATED_PREFIX calls bom !! k) ->
  d ∈ entry_designators (bom !! k)
  \/ (d ≠ "" /\ String.prefix AUTOGENERATED_PREFIX d = false).
Proof.
  rewrite add_all_lookup, merged_designators, elem_of_union.
  intros [H|H]; [left; exact H | right].
  apply elem_of_calls_designators in H. unfold visible_designator in H.
  apply andb_true_iff in H as [Hne Hpre].
  apply negb_true_iff in Hne, Hpre. split; [|exact Hpre].
  intros ->. discriminate Hne.
Qed.

(** C9: for a cable of category "bundle" that is not ignored, the
    aggregation succeeds and makes one addition per wire object of the
    bundle, under the wire's content hash, with the bundle's quantity and
    designator, and none under the bundle's own hash as such.  In the
    mapping that results, for every hash [k]: the quantity is the former
    quantity plus the bundle's quantity once for every wire object whose
    hash is [k], plus the quantities of the additional components under
    [k]; the designator set is the former set plus the bundle's designator,
    if it is visible, wherever a wire or an additional component has the
    hash [k]; a hash that a wire has holds an entry, of the category "wire"
    unless an additional component shares the hash; and a hash that neither
    a wire nor an additional component has, the bundle's own hash among
    them, keeps what it held, an entry or none. *)
Theorem bundle_cable_adds_one_entry_per_wire (item : Cable.t)
    (bom : gmap BomHash bom_entry.t) :
  Cable.category item = PStr "bundle" ->
  Cable.ignore_in_bom item = false ->
  let wires := dict_values (Cable.wire_objects item) in
  let comps := Cable.additional_components item in
  exists bom' : gmap BomHash bom_entry.t,
    _add_to_internal_bom AUTOGENERATED_PREFIX (ACable item) bom = ok bom'
    /\ (forall k : BomHash,
          entry_qty (bom' !! k)
          = (entry_qty (bom !! k)
             + Cable.bom_qty item * Z.of_nat (wires_with_hash k wires)
             + additional_qty k comps)%Z
          /\ (forall d,
                d ∈ entry_designators (bom' !! k) <->
                d ∈ entry_designators (bom !! k)
                \/ (d = Cable.designator item /\ d ≠ ""
                    /\ String.prefix AUTOGENERATED_PREFIX d = false
                    /\ ((0 < wires_with_hash k wires)%nat
                        \/ has_additional k comps)))
          /\ ((0 < wires_with_hash k wires)%nat -> is_Some (bom' !! k))
          /\ ((0 < wires_with_hash k wires)%nat -> ~ has_additional k comps ->
              bom_entry.category <$> (bom' !! k) = Some (Some (PStr "wire")))
          /\ (wires_with_hash k wires = 0%nat -> ~ has_additional k comps ->
              bom' !! k = bom !! k))
    /\ ((forall w, w ∈ wires -> WireClass.bom_hash w ≠ Cable.bom_hash item) ->
        (forall comp, comp ∈ comps ->
                      AdditionalComponent.bom_hash comp ≠ Cable.bom_hash item) ->
        bom' !! Cable.bom_hash item = bom !! Cable.bom_hash item).
Proof.
  intros Hcat Hign wires comps.
  set (own := (fun subitem =>
                 mkAddCall (WireClass.bom_hash subitem) (Cable.bom_qty item)
                           (DOne (Cable.designator item)) (PStr "wire"))
                <$> wires).
  assert (Hown : forall c, c ∈ own ->
                   call_designator c = DOne (Cable.designator item)
                   /\ call_category c = PStr "wire").
  { intros c Hin. apply list_elem_of_fmap in Hin as (w & -> & _).
    split; reflexivity. }
  assert (Htouched : forall k, touched k own = true
                               <-> (0 < wires_with_hash k wires)%nat)
    by (intros k; apply wire_additions_touched).
  exists (add_all AUTOGENERATED_PREFIX
            (own ++ additional_calls "wire" (Cable.designator item) comps) bom).
  split; [|split].
  - rewrite _add_to_internal_bom_calls. unfold item_calls. simpl.
    rewrite Hign. rewrite decide_True by exact Hcat. reflexivity.
  - intros k.
    destruct (item_entries AUTOGENERATED_PREFIX own "wire"
                (Cable.designator item) comps bom k Hown)
      as (Hqty & Hdes & Hwire & _ & Hsame).
    split; [|split; [|split; [|split]]].
    + rewrite Hqty. unfold own. rewrite wire_additions_qty. reflexivity.
    + intros d. rewrite Hdes, Htouched. reflexivity.
    + intros Hpos. apply Htouched in Hpos.
      rewrite add_all_lookup, merged_touched
        by (rewrite touched_app, Hpos; reflexivity).
      eauto.
    + intros Hpos. apply Hwire, Htouched, Hpos.
    + intros Hnone. apply Hsame.
      destruct (touched k own) eqn:E; [|reflexivity].
      apply Htouched in E. lia.
  - intros Hwires Hcomps.
    destruct (item_entries AUTOGENERATED_PREFIX own "wire"
                (Cable.designator item) comps bom (Cable.bom_hash item) Hown)
      as (_ & _ & _ & _ & Hsame).
    apply Hsame.
    + destruct (touched (Cable.bom_hash item) own) eqn:E; [|reflexivity].
      apply Htouched, wires_with_hash_pos in E as (w & Hin & Hk).
      destruct (Hwires w Hin Hk).
    + intros (comp & Hin & _ & Hk). exact (Hcomps comp Hin Hk).
Qed.

(** C2, as the code has it: [populate_bom] does not clear the mapping; it
    makes the additions of all items on top of the entries already there.
    On a harness whose mapping is empty a first call builds the BOM, and a
    second call in succession keeps every key, designator set and category
    and doubles every quantity. *)
Theorem populate_bom_accumulates (self h1 : Harness.t) :
  populate_bom AUTOGENERATED_PREFIX self = ok h1 ->
  (exists calls,
     items_calls (harness_items self) = ok calls
     /\ h1 = Harness.set_bom self
               (add_all AUTOGENERATED_PREFIX calls (Harness.bom self))
     /\ forall k : BomHash,
          entry_qty (Harness.bom h1 !! k)
          = (entry_qty (Harness.bom self !! k) + calls_qty k calls)%Z)
  /\ (Harness.bom self = ∅ ->
      exists h2,
        populate_bom AUTOGENERATED_PREFIX h1 = ok h2
        /\ forall k : BomHash,
             Harness.bom h2 !! k = double_qty <$> (Harness.bom h1 !! k)).
Proof.
  intros Hrun. rewrite populate_bom_calls in Hrun.
  destruct (items_calls (harness_items self)) as [e|calls] eqn:Hcalls;
    [discriminate |].
  simpl in Hrun. apply ok_inj in Hrun. subst h1. split.
  - exists calls. split; [reflexivity |]. split; [reflexivity |].
    intros k. simpl. rewrite add_all_lookup, merged_qty. reflexivity.
  - intros Hempty. eexists. split.
    + rewrite populate_bom_calls.
      change (harness_items (Harness.set_bom self _)) with (harness_items self).
      rewrite Hcalls. reflexivity.
    + intros k. simpl. rewrite Hempty, !add_all_lookup, lookup_empty.
      destruct (touched k calls) eqn:Ht.
      * rewrite !merged_touched by exact Ht. simpl.
        rewrite entry_qty_Some, entry_designators_Some.
        unfold double_qty. simpl. change (entry_qty None) with 0%Z.
        change (entry_designators None) with (∅ : gset string).
        f_equal. f_equal; f_equal; first [lia | set_solver].
      * rewrite !merged_untouched by exact Ht. reflexivity.
Qed.
End BomClaims.

(** ** The BOM claims on examples *)

Lemma bom_aggregation_additive_order_independent_witness :
  exists bom1 bom2 : gmap BomHash bom_entry.t,
    for_each (_add_to_internal_bom example_AUTOGENERATED_PREFIX)
      [AConnector X1; AConnector X1; AConnector X2] ∅ = ok bom1
    /\ for_each (_add_to_internal_bom example_AUTOGENERATED_PREFIX)
         [AConnector X1; AConnector X2; AConnector X1] ∅ = ok bom2
    /\ entry_qty (bom1 !! "connector-a") = 2%Z
    /\ entry_qty (bom2 !! "connector-a") = 2%Z
    /\ entry_designators (bom1 !! "connector-a") = {["X1"]}
    /\ entry_designators (bom2 !! "connector-a") = {["X1"]}
    /\ entry_designators (bom1 !! "connector-b") = {["X2"]}
    /\ (forall k : BomHash,
          entry_qty (bom2 !! k) = entry_qty (bom1 !! k)
          /\ entry_designators (bom2 !! k) = entry_designators (bom1 !! k)).
Proof.
  destruct (for_each (_add_to_internal_bom example_AUTOGENERATED_PREFIX)
              [AConnector X1; AConnector X1; AConnector X2] ∅)
    as [e|bom1] eqn:E.
  { vm_compute in E. discriminate E. }
  destruct (bom_aggregation_additive_order_independent
              example_AUTOGENERATED_PREFIX
              [AConnector X1; AConnector X1; AConnector X2]
              [AConnector X1; AConnector X2; AConnector X1]
              ∅ bom1 (perm_skip _ (perm_swap _ _ _)) E)
    as (bom2 & calls & Hrun2 & Hcalls & Hall & Hconn & _).
  exists bom1, bom2.
  split; [reflexivity |]. split; [exact Hrun2 |].
  assert (Hsame : forall k : BomHash,
            entry_qty (bom2 !! k) = entry_qty (bom1 !! k)
            /\ entry_designators (bom2 !! k) = entry_designators (bom1 !! k))
    by (intros k; apply (Hall k)).
  assert (HX1 : "X1" ∈ entry_designators (bom1 !! "connector-a")).
  { apply (Hconn X1); [left | reflexivity | discriminate | reflexivity]. }
  assert (HX2 : "X2" ∈ entry_designators (bom1 !! "connector-b")).
  { apply (Hconn X2);
      [do 2 right; left | reflexivity | discriminate | reflexivity]. }
  apply ok_inj in Hcalls. subst calls.
  assert (Hq : entry_qty (bom1 !! "connector-a") = 2%Z)
    by (etransitivity; [apply (Hall "connector-a") | reflexivity]).
  assert (Ha : entry_designators (bom1 !! "connector-a") = {["X1"]}).
  { apply set_eq. intros d. rewrite elem_of_singleton. split; [|intros ->; exact HX1].
    intros Hd. apply (Hall "connector-a") in Hd
      as [Hd|(_ & c & Hin & Hk & Hcar)]; [inversion Hd |].
    repeat (apply elem_of_cons in Hin as [->|Hin];
            [first [discriminate Hk | symmetry; exact Hcar] |]).
    inversion Hin. }
  assert (Hb : entry_designators (bom1 !! "connector-b") = {["X2"]}).
  { apply set_eq. intros d. rewrite elem_of_singleton. split; [|intros ->; exact HX2].
    intros Hd. apply (Hall "connector-b") in Hd
      as [Hd|(_ & c & Hin & Hk & Hcar)]; [inversion Hd |].
    repeat (apply elem_of_cons in Hin as [->|Hin];
            [first [discriminate Hk | symmetry; exact Hcar] |]).
    inversion Hin. }
  split; [exact Hq |].
  split; [etransitivity; [apply (Hsame "connector-a") | exact Hq] |].
  split; [exact Ha |].
  split; [etransitivity; [apply (Hsame "connector-a") | exact Ha] |].
  split; [exact Hb | exact Hsame].
Defined.

Lemma autogenerated_designators_never_added_witness :
  "X1" ∈ entry_designators ((∅ : gmap BomHash bom_entry.t) !! "part")
  \/ ("X1" ≠ "" /\ String.prefix example_AUTOGENERATED_PREFIX "X1" = false).
Proof.
  apply (autogenerated_designators_never_added example_AUTOGENERATED_PREFIX
           [mkAddCall "part" 1%Z (DList ["X1"; "AUTOGENERATED_X7"])
                      (PStr "connector")]
           ∅ "part" "X1").
  refine (bool_decide_unpack _ _). vm_compute. exact I.
Defined.

Lemma bundle_cable_adds_one_entry_per_wire_witness :
  exists bom' : gmap BomHash bom_entry.t,
    _add_to_internal_bom example_AUTOGENERATED_PREFIX (ACable B1) ∅ = ok bom'
    /\ entry_qty (bom' !! "wire-rd") = 1%Z
    /\ entry_qty (bom' !! "wire-bk") = 1%Z
    /\ "B1" ∈ entry_designators (bom' !! "wire-rd")
    /\ "B1" ∈ entry_designators (bom' !! "wire-bk")
    /\ bom_entry.category <$> (bom' !! "wire-rd") = Some (Some (PStr "wire"))
    /\ bom_entry.category <$> (bom' !! "wire-bk") = Some (Some (PStr "wire"))
    /\ bom' !! "bundle-a" = None.
Proof.
  destruct (bundle_cable_adds_one_entry_per_wire
              example_AUTOGENERATED_PREFIX B1 ∅ eq_refl eq_refl)
    as (bom' & Hrun & Hall & Hown).
  assert (Hno : forall k, ~ has_additional k (Cable.additional_components B1))
    by (intros k (comp & Hin & _); inversion Hin).
  exists bom'. split; [exact Hrun |].
  destruct (Hall "wire-rd") as (Hq1 & Hd1 & _ & Hc1 & _).
  destruct (Hall "wire-bk") as (Hq2 & Hd2 & _ & Hc2 & _).
  split; [etransitivity; [exact Hq1 | reflexivity] |].
  split; [etransitivity; [exact Hq2 | reflexivity] |].
  split.
  { apply Hd1. right. split; [reflexivity |]. split; [discriminate |].
    split; [reflexivity |]. left. vm_compute. lia. }
  split.
  { apply Hd2. right. split; [reflexivity |]. split; [discriminate |].
    split; [reflexivity |]. left. vm_compute. lia. }
  split; [apply Hc1; [vm_compute; lia | apply Hno] |].
  split; [apply Hc2; [vm_compute; lia | apply Hno] |].
  etransitivity; [apply Hown | apply lookup_empty].
  - intros w Hin.
    repeat (apply elem_of_cons in Hin as [->|Hin]; [discriminate |]).
    inversion Hin.
  - intros comp Hin. inversion Hin.
Defined.

Lemma populate_bom_accumulates_witness :
  exists h1 h2,
    populate_bom example_AUTOGENERATED_PREFIX scenario = ok h1
    /\ populate_bom example_AUTOGENERATED_PREFIX h1 = ok h2
    /\ forall k : BomHash,
         Harness.bom h2 !! k = double_qty <$> (Harness.bom h1 !! k).
Proof.
  destruct (populate_bom example_AUTOGENERATED_PREFIX scenario)
    as [e|h1] eqn:E.
  { vm_compute in E. discriminate E. }
  destruct (proj2 (populate_bom_accumulates example_AUTOGENERATED_PREFIX
                     scenario h1 E) eq_refl)
    as (h2 & Hrun & Hdouble).
  exists h1, h2. split; [reflexivity |]. split; [exact Hrun | exact Hdouble].
Defined.

(** Against C2 as stated: after a second call the mapping differs from the
    mapping after the first; the quantity of connector [X1] went from 1 to
    2. *)
Lemma populate_bom_twice_counterexample :
  exists h1 h2,
    populate_bom example_AUTOGENERATED_PREFIX scenario = ok h1
    /\ populate_bom example_AUTOGENERATED_PREFIX h1 = ok h2
    /\ entry_qty (Harness.bom h1 !! "connector-a") = 1%Z
    /\ entry_qty (Harness.bom h2 !! "connector-a") = 2%Z
    /\ Harness.bom h2 ≠ Harness.bom h1.
Proof.
  eexists. eexists.
  split; [vm_compute; reflexivity |].
  split; [vm_compute; reflexivity |].
  split; [vm_compute; reflexivity |].
  split; [vm_compute; reflexivity |].
  intros H.
  apply (f_equal (fun b : gmap BomHash bom_entry.t =>
                    entry_qty (b !! "connector-a"))) in H.
  vm_compute in H. discriminate H.
Qed.

(** * Further properties of the harness *)

(** ** Wire references *)

Lemma py_index_in x l i : py_index x l = Some i -> py_in x l = true.
Proof.
  intros H. destruct (py_in x l) eqn:E; [reflexivity |].
  rewrite (py_not_in_index _ _ E) in H. discriminate H.
Qed.

Lemma py_in_count x l : py_in x l = true -> (1 <= py_count x l)%nat.
Proof.
  induction l as [|y l IH]; simpl; [discriminate |].
  destruct (decide (y = x)); [lia |]. intros H. specialize (IH H). lia.
Qed.

Lemma py_index_lt x l i : py_index x l = Some i -> (i < length l)%nat.
Proof.
  intros H. apply py_index_lookup in H. eapply lookup_lt_Some. exact H.
Qed.

(** Property X1: a [via_wire] that is a color of the registered cable, occurring
    once among the colors and not found at another position among the wire
    labels, resolves to the wire id [position + 1], which lies between 1
    and the number of colors.  Colors come first: the wire labels are not
    searched for duplicates in this case. *)
Theorem wire_color_resolves_to_position self via_name via_wire cable i :
  dict_get via_name (Harness.cables self) = Some cable ->
  py_index via_wire (Cable.colors cable) = Some i ->
  py_count via_wire (Cable.colors cable) = 1%nat ->
  (py_in via_wire (Cable.wirelabels cable) = true ->
   py_index via_wire (Cable.wirelabels cable) = Some i) ->
  resolve_via_wire self via_name via_wire = ok (PInt (Z.of_nat i + 1))
  /\ (1 <= Z.of_nat i + 1 <= Z.of_nat (length (Cable.colors cable)))%Z.
Proof.
  intros Hc Hi Hone Hlab. split.
  - unfold resolve_via_wire. rewrite Hc, (py_index_in _ _ _ Hi).
    destruct (py_in via_wire (Cable.wirelabels cable)) eqn:El; simpl.
    + rewrite Hi, (Hlab eq_refl).
      destruct (decide (Some i ≠ Some i)) as [Hne|_]; [congruence |].
      simpl. destruct (decide (1 < py_count via_wire (Cable.colors cable))%nat);
        [lia | reflexivity].
    + destruct (decide (1 < py_count via_wire (Cable.colors cable))%nat);
        [lia |].
      rewrite Hi. reflexivity.
  - pose proof (py_index_lt _ _ _ Hi). lia.
Qed.

Lemma wire_color_resolves_to_position_witness :
  resolve_via_wire scenario "W1" (PStr "BK") = ok (PInt 2).
Proof.
  apply (wire_color_resolves_to_position scenario "W1" (PStr "BK") W1 1%nat);
    [reflexivity | reflexivity | reflexivity | discriminate].
Defined.

(** Property X2: a [via_wire] that is no color but a wire label of the registered
    cable, occurring once among the labels, resolves to the wire id
    [position + 1]. *)
Theorem wire_label_resolves_to_position self via_name via_wire cable i :
  dict_get via_name (Harness.cables self) = Some cable ->
  py_in via_wire (Cable.colors cable) = false ->
  py_index via_wire (Cable.wirelabels cable) = Some i ->
  py_count via_wire (Cable.wirelabels cable) = 1%nat ->
  resolve_via_wire self via_name via_wire = ok (PInt (Z.of_nat i + 1))
  /\ (1 <= Z.of_nat i + 1 <= Z.of_nat (length (Cable.wirelabels cable)))%Z.
Proof.
  intros Hc Hcol Hi Hone. split.
  - unfold resolve_via_wire. rewrite Hc, Hcol, (py_index_in _ _ _ Hi). simpl.
    destruct (decide (1 < py_count via_wire (Cable.wirelabels cable))%nat);
      [lia |].
    rewrite Hi. reflexivity.
  - pose proof (py_index_lt _ _ _ Hi). lia.
Qed.

(** Property X3: the exceptions of the wire block reach the caller of [connect]
    once both endpoints have passed: a reference found among the colors and
    among the wire labels at different positions raises the
    colors/wirelabels exception; otherwise a color occurring more than
    once, or a label (that is no color) occurring more than once, raises
    the "used for more than one wire" exception. *)
Theorem connect_wire_ambiguity self from_name from_pin via_name via_wire
    to_name to_pin cable from_to :
  check_endpoints self from_name from_pin to_name to_pin = ok from_to ->
  dict_get via_name (Harness.cables self) = Some cable ->
  let colors := Cable.colors cable in
  let wirelabels := Cable.wirelabels cable in
  let run := connect self from_name from_pin via_name via_wire to_name to_pin in
  (py_in via_wire colors = true -> py_in via_wire wirelabels = true ->
   py_index via_wire colors ≠ py_index via_wire wirelabels ->
   run = raise (Exception (msg_wire_ambiguous via_name via_wire)))
  /\ (py_in via_wire colors = true ->
      (py_in via_wire wirelabels = true ->
       py_index via_wire colors = py_index via_wire wirelabels) ->
      (1 < py_count via_wire colors)%nat ->
      run = raise (Exception (msg_wire_duplicate via_name via_wire)))
  /\ (py_in via_wire colors = false ->
      (1 < py_count via_wire wirelabels)%nat ->
      run = raise (Exception (msg_wire_duplicate via_name via_wire))).
Proof.
  intros Hends Hc colors wirelabels run.
  assert (Hrun : forall e, resolve_via_wire self via_name via_wire = raise e ->
                           run = raise e).
  { intros e He. subst run. unfold connect, connect_with; fold perform_connection. rewrite Hends, bind_ok.
    destruct from_to as [f t]. rewrite He. reflexivity. }
  split; [|split].
  - intros Hcol Hlab Hne. apply Hrun. unfold resolve_via_wire.
    rewrite Hc. fold colors wirelabels. rewrite Hcol, Hlab. simpl.
    destruct (decide (py_index via_wire colors ≠ py_index via_wire wirelabels));
      [reflexivity | contradiction].
  - intros Hcol Hsame Hdup. apply Hrun. unfold resolve_via_wire.
    rewrite Hc. fold colors wirelabels. rewrite Hcol.
    destruct (py_in via_wire wirelabels) eqn:El; simpl.
    + destruct (decide (py_index via_wire colors ≠ py_index via_wire wirelabels))
        as [Hne|_]; [exfalso; apply Hne, Hsame; reflexivity |].
      simpl. destruct (decide (1 < py_count via_wire colors)%nat);
        [reflexivity | lia].
    + destruct (decide (1 < py_count via_wire colors)%nat);
        [reflexivity | lia].
  - intros Hcol Hdup. apply Hrun. unfold resolve_via_wire.
    rewrite Hc. fold colors wirelabels. rewrite Hcol. simpl.
    assert (Hlab : py_in via_wire wirelabels = true).
    { destruct (py_in via_wire wirelabels) eqn:El; [reflexivity |].
      exfalso. clear -El Hdup.
      induction wirelabels as [|y l IH]; simpl in *; [lia |].
      destruct (decide (y = via_wire)); [discriminate | auto]. }
    rewrite Hlab.
    destruct (decide (1 < py_count via_wire wirelabels)%nat);
      [reflexivity | lia].
Qed.

Lemma wire_label_resolves_to_position_witness :
  resolve_via_wire scenario_wires "W2" (PStr "AUX") = ok (PInt 4).
Proof.
  apply (wire_label_resolves_to_position scenario_wires "W2" (PStr "AUX") W2
           3%nat);
    reflexivity.
Defined.

Lemma connect_wire_ambiguity_witness :
  connect scenario_wires (Some "X1") (PInt 1) "W2" (PStr "BK")
          (Some "X2") (PInt 1)
  = raise (Exception
      "W2:BK is defined both in colors and wirelabels, for different wires.")
  /\ connect scenario_wires (Some "X1") (PInt 1) "W2" (PStr "RD")
             (Some "X2") (PInt 1)
     = raise (Exception "W2:RD is used for more than one wire.")
  /\ connect scenario_wires (Some "X1") (PInt 1) "W2" (PStr "SIG")
             (Some "X2") (PInt 1)
     = raise (Exception "W2:SIG is used for more than one wire.").
Proof.
  split; [|split].
  - apply (proj1 (connect_wire_ambiguity scenario_wires (Some "X1") (PInt 1)
                    "W2" (PStr "BK") (Some "X2") (PInt 1) W2 _
                    eq_refl eq_refl));
      [reflexivity | reflexivity | vm_compute; congruence].
  - apply (proj1 (proj2 (connect_wire_ambiguity scenario_wires (Some "X1")
                           (PInt 1) "W2" (PStr "RD") (Some "X2") (PInt 1) W2 _
                           eq_refl eq_refl)));
      [reflexivity | discriminate | vm_compute; lia].
  - apply (proj2 (proj2 (connect_wire_ambiguity scenario_wires (Some "X1")
                           (PInt 1) "W2" (PStr "SIG") (Some "X2") (PInt 1) W2 _
                           eq_refl eq_refl)));
      [reflexivity | vm_compute; lia].
Defined.

(** ** Pin references *)

Lemma resolve_pin_inversion name connector pin p mapped :
  resolve_pin name connector pin = ok (p, mapped) ->
  py_in p (Connector.pins connector) = true
  /\ (if mapped : bool
      then py_count pin (Connector.pinlabels connector) = 1%nat
           /\ exists i, py_index pin (Connector.pinlabels connector) = Some i
                        /\ Connector.pins connector !! i = Some p
      else p = pin /\ py_in pin (Connector.pinlabels connector) = false).
Proof.
  unfold resolve_pin.
  set (pins := Connector.pins connector).
  set (pinlabels := Connector.pinlabels connector).
  intros H.
  destruct (py_in pin pinlabels) eqn:El.
  - assert (Hstep1 : exists u : unit,
              (if py_in pin pins && true then
                 if decide (py_index pin pins ≠ py_index pin pinlabels)
                 then raise (Exception (msg_pin_ambiguous name pin))
                 else ok ()
               else ok ()) = ok u).
    { destruct (py_in pin pins && true);
        [destruct (decide (py_index pin pins ≠ py_index pin pinlabels))|];
        [discriminate H | eauto | eauto]. }
    destruct Hstep1 as [[] Hstep1]. rewrite Hstep1, bind_ok in H.
    destruct (decide (1 < py_count pin pinlabels)%nat) as [|Hone];
      [discriminate H |].
    destruct (py_index pin pinlabels) as [i|] eqn:Ei; [|discriminate H].
    destruct (pins !! i) as [q|] eqn:Eq; [|discriminate H].
    rewrite bind_ok in H. cbv beta iota in H.
    rewrite (lookup_py_in _ _ _ Eq) in H. simpl in H.
    apply ok_inj in H. injection H as <- <-.
    split; [exact (lookup_py_in _ _ _ Eq) |].
    split; [pose proof (py_in_count _ _ El); lia | eauto].
  - rewrite andb_false_r, !bind_ok in H. cbv beta iota in H.
    destruct (py_in pin pins) eqn:Ep; simpl in H; [|discriminate H].
    apply ok_inj in H. injection H as <- <-. auto.
Qed.

(** Property X4: whenever the resolution of a pin reference succeeds, its result is
    a pin id of the connector.  A result that came through the label rule is
    the pin id at the position of a label occurring exactly once; any other
    result is the reference itself, which is then no pin label. *)
Theorem resolve_pin_sound name connector pin p mapped :
  resolve_pin name connector pin = ok (p, mapped) ->
  py_in p (Connector.pins connector) = true
  /\ (if mapped : bool
      then py_count pin (Connector.pinlabels connector) = 1%nat
           /\ exists i, py_index pin (Connector.pinlabels connector) = Some i
                        /\ Connector.pins connector !! i = Some p
      else p = pin /\ py_in pin (Connector.pinlabels connector) = false).
Proof. apply resolve_pin_inversion. Qed.

Lemma resolve_pin_sound_witness :
  py_in (PInt 2) (Connector.pins X1) = true
  /\ py_count (PStr "VCC") (Connector.pinlabels X1) = 1%nat
  /\ exists i, py_index (PStr "VCC") (Connector.pinlabels X1) = Some i
               /\ Connector.pins X1 !! i = Some (PInt 2).
Proof.
  exact (resolve_pin_sound "X1" X1 (PStr "VCC") (PInt 2) true eq_refl).
Defined.

(** Property X5: resolution is idempotent on results that are no pin label: resolving
    the pin id that a successful resolution returned gives that pin id
    again, by the direct rule. *)
Theorem resolve_pin_idempotent name connector pin p mapped :
  resolve_pin name connector pin = ok (p, mapped) ->
  py_in p (Connector.pinlabels connector) = false ->
  resolve_pin name connector p = ok (p, false).
Proof.
  intros H Hl. apply resolve_pin_direct; [|exact Hl].
  exact (proj1 (resolve_pin_inversion _ _ _ _ _ H)).
Qed.

Lemma resolve_pin_idempotent_witness :
  resolve_pin "X1" X1 (PInt 1) = ok (PInt 1, false).
Proof.
  exact (resolve_pin_idempotent "X1" X1 (PStr "GND") (PInt 1) true
           eq_refl eq_refl).
Defined.

(** ** Names that are not registered, and open wire ends *)

Lemma check_endpoint_unregistered self from_name to_name n pin from_to :
  dict_get n (Harness.connectors self) = None ->
  check_endpoint self from_name to_name (Some n) pin from_to = ok from_to.
Proof. intros H. unfold check_endpoint. rewrite H. reflexivity. Qed.

Lemma lookup_pin_obj_unregistered self n pin :
  dict_get n (Harness.connectors self) = None ->
  lookup_pin_obj self (Some n) pin = raise (KeyError (PStr n)).
Proof.
  intros H. unfold lookup_pin_obj, getitem_str. rewrite H. reflexivity.
Qed.

(** Property X6: a connector name that is given but not registered is not checked
    by the loop over the endpoints, and [connect] never succeeds with it:
    whatever the other arguments are, the call raises.  When the checks of
    the other endpoint and of the wire pass, the exception is the [KeyError]
    of [self.connectors[from_name]]. *)
Theorem connect_unregistered_connector self n :
  dict_get n (Harness.connectors self) = None ->
  (forall from_name to_name pin from_to,
     check_endpoint self from_name to_name (Some n) pin from_to = ok from_to)
  /\ (forall from_pin via_name via_wire to_name to_pin,
        exists e,
          connect self (Some n) from_pin via_name via_wire to_name to_pin
          = raise e)
  /\ (forall from_name from_pin via_name via_wire to_pin,
        exists e,
          connect self from_name from_pin via_name via_wire (Some n) to_pin
          = raise e)
  /\ (forall from_pin via_name via_wire to_name to_pin from_to w,
        check_endpoint self (Some n) to_name to_name to_pin (from_pin, to_pin)
        = ok from_to ->
        resolve_via_wire self via_name via_wire = ok w ->
        connect self (Some n) from_pin via_name via_wire to_name to_pin
        = raise (KeyError (PStr n))).
Proof.
  intros Hn. split; [|split; [|split]].
  - intros. apply check_endpoint_unregistered. exact Hn.
  - intros. unfold connect, connect_with, check_endpoints; fold perform_connection.
    rewrite (check_endpoint_unregistered _ _ _ _ _ _ Hn), bind_ok.
    destruct (check_endpoint _ _ _ to_name _ _) as [e|[f t]]; [eauto |].
    rewrite bind_ok.
    destruct (resolve_via_wire self via_name via_wire) as [e|w]; [eauto |].
    rewrite bind_ok. unfold perform_connection, perform_connection_with.
    rewrite (lookup_pin_obj_unregistered _ _ _ Hn). eauto.
  - intros. unfold connect, connect_with, check_endpoints; fold perform_connection.
    destruct (check_endpoint _ _ _ from_name _ _) as [e|ft]; [eauto |].
    rewrite bind_ok, (check_endpoint_unregistered _ _ _ _ _ _ Hn), bind_ok.
    destruct ft as [f t].
    destruct (resolve_via_wire self via_name via_wire) as [e|w]; [eauto |].
    rewrite bind_ok. unfold perform_connection, perform_connection_with.
    destruct (lookup_pin_obj self from_name f) as [e|fo]; [eauto |].
    rewrite bind_ok, (lookup_pin_obj_unregistered _ _ _ Hn). eauto.
  - intros from_pin via_name via_wire to_name to_pin from_to w Hto Hw.
    unfold connect, connect_with, check_endpoints; fold perform_connection.
    rewrite (check_endpoint_unregistered _ _ _ _ _ _ Hn), bind_ok, Hto, bind_ok.
    destruct from_to as [f t]. rewrite Hw, bind_ok. unfold perform_connection, perform_connection_with.
    rewrite (lookup_pin_obj_unregistered _ _ _ Hn). reflexivity.
Qed.

Lemma connect_unregistered_connector_witness :
  connect scenario (Some "X9") (PStr "no such pin") "W1" (PStr "RD")
          (Some "X2") (PInt 1)
  = raise (KeyError (PStr "X9")).
Proof.
  apply (connect_unregistered_connector scenario "X9" eq_refl)
    with (from_to := (PStr "no such pin", PInt 1)) (w := PInt 1);
    reflexivity.
Defined.

(** Property X7: [connect] never succeeds on a cable that is not registered.  The
    wire block lets any reference through, and when both endpoints exist
    the call ends in the [KeyError] of [self.cables[via_name]]. *)
Theorem connect_unregistered_cable self via_name :
  dict_get via_name (Harness.cables self) = None ->
  (forall via_wire, resolve_via_wire self via_name via_wire = ok via_wire)
  /\ (forall from_name from_pin via_wire to_name to_pin,
        exists e,
          connect self from_name from_pin via_name via_wire to_name to_pin
          = raise e)
  /\ (forall from_name from_pin via_wire to_name to_pin f t,
        check_endpoints self from_name from_pin to_name to_pin = ok (f, t) ->
        endpoint_exists self from_name f ->
        endpoint_exists self to_name t ->
        connect self from_name from_pin via_name via_wire to_name to_pin
        = raise (KeyError (PStr via_name))).
Proof.
  intros Hv.
  assert (Hw : forall via_wire,
             resolve_via_wire self via_name via_wire = ok via_wire).
  { intros. unfold resolve_via_wire. rewrite Hv. reflexivity. }
  split; [exact Hw |]. split.
  - intros. unfold connect, connect_with; fold perform_connection.
    destruct (check_endpoints _ _ _ _ _) as [e|[f t]]; [eauto |].
    rewrite bind_ok, Hw, bind_ok. unfold perform_connection, perform_connection_with.
    destruct (lookup_pin_obj self from_name f) as [e|fo]; [eauto |].
    rewrite bind_ok.
    destruct (lookup_pin_obj self to_name t) as [e|too]; [eauto |].
    rewrite bind_ok. unfold getitem_str. rewrite Hv. eauto.
  - intros from_name from_pin via_wire to_name to_pin f t Hends Hf Ht.
    unfold connect, connect_with; fold perform_connection. rewrite Hends, bind_ok, Hw, bind_ok.
    unfold perform_connection, perform_connection_with.
    rewrite (lookup_pin_obj_exists _ _ _ Hf), bind_ok.
    rewrite (lookup_pin_obj_exists _ _ _ Ht), bind_ok.
    unfold getitem_str. rewrite Hv. reflexivity.
Qed.

Lemma connect_unregistered_cable_witness :
  connect scenario (Some "X1") (PStr "GND") "W9" (PStr "RD")
          (Some "X2") (PInt 1)
  = raise (KeyError (PStr "W9")).
Proof.
  apply (connect_unregistered_cable scenario "W9" eq_refl)
    with (f := PInt 1) (t := PInt 1);
    [reflexivity | vm_compute; eauto | vm_compute; eauto].
Defined.

(** Property X8: a call with no connector at either end of a registered cable
    checks the wire only, ignores both pin arguments, and records the
    connection [(None, wire, None)] after the records already there; no
    connector is touched. *)
Theorem connect_open_ends self from_pin via_name via_wire to_pin cable w :
  dict_get via_name (Harness.cables self) = Some cable ->
  resolve_via_wire self via_name via_wire = ok w ->
  connect self None from_pin via_name via_wire None to_pin
  = ok (Harness.set_cables self
          (dict_set via_name
             (Cable.set_connections cable
                (Cable._connections cable ++ [mkConnection None w None])%list)
             (Harness.cables self))).
Proof.
  intros Hc Hw. unfold connect, connect_with, check_endpoints; fold perform_connection. simpl.
  rewrite Hw, bind_ok. unfold perform_connection, perform_connection_with, getitem_str. simpl.
  rewrite Hc. reflexivity.
Qed.

Lemma connect_open_ends_witness :
  exists self',
    connect scenario None (PStr "anything") "W1" (PStr "BK") None PNone
    = ok self'
    /\ connections self' "W1" = [mkConnection None (PInt 2) None]
    /\ Harness.connectors self' = Harness.connectors scenario.
Proof.
  eexists. split.
  - apply (connect_open_ends scenario (PStr "anything") "W1" (PStr "BK")
             PNone W1 (PInt 2));
      reflexivity.
  - split; reflexivity.
Defined.

(** ** What a successful [connect] changes *)

Lemma activate_pin_of_inversion self n pin side is_connection self' :
  activate_pin_of self n pin side is_connection = ok self' ->
  Harness.cables self' = Harness.cables self
  /\ Harness.mates self' = Harness.mates self
  /\ Harness.bom self' = Harness.bom self
  /\ (forall n', connector_lists self' n' = connector_lists self n')
  /\ (forall name' pin',
        endpoint_exists self name' pin' -> endpoint_exists self' name' pin').
Proof.
  intros H.
  assert (Hobj : exists p, pin_obj self n pin = Some p).
  { unfold activate_pin_of, getitem_str, pin_obj in *.
    destruct (dict_get n (Harness.connectors self)) as [c|]; [|discriminate H].
    rewrite bind_ok in H. unfold Connector.activate_pin, getitem in H.
    simpl. destruct (dict_get pin (Connector.pin_objects c)) as [p|];
      [eauto | discriminate H]. }
  destruct Hobj as [p Hp].
  destruct (activate_pin_of_spec self n pin side is_connection p Hp)
    as (self2 & Hrun & Hcab & Hmates & Hbom & Hpins).
  rewrite Hrun in H. apply ok_inj in H. subst self2.
  split; [exact Hcab |]. split; [exact Hmates |]. split; [exact Hbom |].
  split.
  - intros n'.
    destruct (pin_obj_Some _ _ _ _ Hp) as (c & Hc & Hpo).
    unfold activate_pin_of, getitem_str in Hrun. rewrite Hc, bind_ok in Hrun.
    unfold Connector.activate_pin, getitem in Hrun.
    rewrite Hpo, !bind_ok in Hrun. apply ok_inj in Hrun. subst self'.
    unfold connector_lists. simpl.
    destruct (decide (n = n')) as [<-|Hne].
    + rewrite dict_get_set_eq, Hc. reflexivity.
    + rewrite dict_get_set_ne by exact Hne. reflexivity.
  - intros [n'|] pin'; simpl; [|trivial].
    rewrite Hpins. destruct (decide (n' = n /\ pin' = pin)); [eauto | trivial].
Qed.

Lemma activate_if_known_inversion self name pin side self' :
  activate_if_known self name pin side = ok self' ->
  Harness.cables self' = Harness.cables self
  /\ Harness.mates self' = Harness.mates self
  /\ Harness.bom self' = Harness.bom self
  /\ (forall n', connector_lists self' n' = connector_lists self n')
  /\ (forall name' pin',
        endpoint_exists self name' pin' -> endpoint_exists self' name' pin').
Proof.
  unfold activate_if_known. destruct name as [n|].
  - destruct (dict_contains n (Harness.connectors self)).
    + apply activate_pin_of_inversion.
    + intros H. apply ok_inj in H. subst self'. repeat split; trivial.
  - intros H. apply ok_inj in H. subst self'. repeat split; trivial.
Qed.

Lemma lookup_pin_obj_inversion self name pin r :
  lookup_pin_obj self name pin = ok r ->
  endpoint_exists self name pin /\ r = endpoint_ref name pin.
Proof.
  unfold lookup_pin_obj, endpoint_exists, pin_obj, getitem_str, getitem.
  destruct name as [n|]; simpl.
  - destruct (dict_get n (Harness.connectors self)) as [c|]; simpl;
      [|discriminate].
    destruct (dict_get pin (Connector.pin_objects c)) as [p|]; simpl;
      [|discriminate].
    intros H. apply ok_inj in H. subst r. split; [eauto | reflexivity].
  - intros H. apply ok_inj in H. subst r. split; [trivial | reflexivity].
Qed.

Lemma perform_connection_inversion self from_name f via_name w to_name t self' :
  perform_connection self from_name f via_name w to_name t = ok self' ->
  endpoint_exists self from_name f
  /\ endpoint_exists self to_name t
  /\ (exists cable,
        dict_get via_name (Harness.cables self) = Some cable
        /\ Harness.cables self'
           = dict_set via_name
               (Cable.set_connections cable
                  (Cable._connections cable
                   ++ [mkConnection (endpoint_ref from_name f) w
                                    (endpoint_ref to_name t)])%list)
               (Harness.cables self))
  /\ Harness.mates self' = Harness.mates self
  /\ Harness.bom self' = Harness.bom self
  /\ (forall n, connector_lists self' n = connector_lists self n)
  /\ (forall name pin,
        endpoint_exists self name pin -> endpoint_exists self' name pin).
Proof.
  unfold perform_connection, perform_connection_with. intros H.
  destruct (lookup_pin_obj self from_name f) as [e|fo] eqn:Ef;
    [discriminate H |].
  destruct (lookup_pin_obj_inversion _ _ _ _ Ef) as [Hf ->].
  rewrite bind_ok in H.
  destruct (lookup_pin_obj self to_name t) as [e|too] eqn:Et;
    [discriminate H |].
  destruct (lookup_pin_obj_inversion _ _ _ _ Et) as [Ht ->].
  rewrite bind_ok in H. unfold getitem_str in H.
  destruct (dict_get via_name (Harness.cables self)) as [cable|] eqn:Ec;
    [|discriminate H].
  rewrite bind_ok in H. unfold Cable._connect in H. rewrite bind_ok in H.
  set (self1 := Harness.set_cables self _) in H.
  destruct (activate_if_known self1 from_name f RIGHT) as [e|self2] eqn:E2;
    [discriminate H |].
  rewrite bind_ok in H.
  destruct (activate_if_known_inversion _ _ _ _ _ E2)
    as (Hc2 & Hm2 & Hb2 & Hl2 & He2).
  destruct (activate_if_known_inversion _ _ _ _ _ H)
    as (Hc3 & Hm3 & Hb3 & Hl3 & He3).
  split; [exact Hf |]. split; [exact Ht |]. split.
  { exists cable. split; [reflexivity |]. rewrite Hc3, Hc2. reflexivity. }
  split; [rewrite Hm3, Hm2; reflexivity |].
  split; [rewrite Hb3, Hb2; reflexivity |].
  split; [intros n; rewrite Hl3, Hl2; reflexivity |].
  intros name pin Hex. apply He3, He2.
  destruct name; exact Hex.
Qed.

Lemma connect_inversion self from_name from_pin via_name via_wire to_name
    to_pin self' :
  connect self from_name from_pin via_name via_wire to_name to_pin = ok self' ->
  exists f t w,
    check_endpoints self from_name from_pin to_name to_pin = ok (f, t)
    /\ resolve_via_wire self via_name via_wire = ok w
    /\ perform_connection self from_name f via_name w to_name t = ok self'.
Proof.
  unfold connect, connect_with; fold perform_connection. intros H.
  destruct (check_endpoints self from_name from_pin to_name to_pin)
    as [e|[f t]]; [discriminate H |].
  rewrite bind_ok in H.
  destruct (resolve_via_wire self via_name via_wire) as [e|w];
    [discriminate H |].
  rewrite bind_ok in H. eauto 6.
Qed.

(** Property X9: a successful [connect] appends exactly one record to the connection
    list of the named cable, after the records already there (none is
    replaced or merged, also when the wire was connected before), between
    the resolved endpoints and under the resolved wire.  It leaves the
    connection lists of all other cables, the mates and the BOM mapping as
    they were. *)
Theorem connect_appends_one_record self from_name from_pin via_name via_wire
    to_name to_pin self' :
  connect self from_name from_pin via_name via_wire to_name to_pin = ok self' ->
  (exists f t w,
     check_endpoints self from_name from_pin to_name to_pin = ok (f, t)
     /\ resolve_via_wire self via_name via_wire = ok w
     /\ connections self' via_name
        = (connections self via_name
           ++ [mkConnection (endpoint_ref from_name f) w
                            (endpoint_ref to_name t)])%list)
  /\ (forall other, other ≠ via_name ->
                    connections self' other = connections self other)
  /\ Harness.mates self' = Harness.mates self
  /\ Harness.bom self' = Harness.bom self.
Proof.
  intros H.
  destruct (connect_inversion _ _ _ _ _ _ _ _ H) as (f & t & w & He & Hw & Hp).
  destruct (perform_connection_inversion _ _ _ _ _ _ _ _ Hp)
    as (_ & _ & (cable & Hc & Hcables) & Hm & Hb & _ & _).
  split; [|split; [|split; assumption]].
  - exists f, t, w. split; [exact He |]. split; [exact Hw |].
    unfold connections. rewrite Hcables, dict_get_set_eq, Hc. reflexivity.
  - intros other Hne. unfold connections.
    rewrite Hcables, dict_get_set_ne by congruence. reflexivity.
Qed.

Lemma connect_appends_one_record_witness :
  exists self',
    connect scenario (Some "X1") (PStr "GND") "W1" (PStr "RD")
            (Some "X2") (PInt 1) = ok self'
    /\ Harness.mates self' = Harness.mates scenario
    /\ Harness.bom self' = Harness.bom scenario.
Proof.
  destruct (connect scenario (Some "X1") (PStr "GND") "W1" (PStr "RD")
                    (Some "X2") (PInt 1)) as [e|self'] eqn:E.
  { vm_compute in E. discriminate E. }
  exists self'. split; [reflexivity |].
  exact (proj2 (proj2 (connect_appends_one_record _ _ _ _ _ _ _ _ E))).
Defined.

Lemma resolve_pin_lists name c c' pin :
  Connector.pins c' = Connector.pins c ->
  Connector.pinlabels c' = Connector.pinlabels c ->
  resolve_pin name c' pin = resolve_pin name c pin.
Proof. intros Hp Hl. unfold resolve_pin. rewrite Hp, Hl. reflexivity. Qed.

Lemma check_endpoint_lists self self' from_name to_name name pin from_to :
  (forall n, connector_lists self' n = connector_lists self n) ->
  check_endpoint self' from_name to_name name pin from_to
  = check_endpoint self from_name to_name name pin from_to.
Proof.
  intros H. unfold check_endpoint. destruct name as [n|]; [|reflexivity].
  specialize (H n). unfold connector_lists in H.
  destruct (dict_get n (Harness.connectors self')) as [c'|],
           (dict_get n (Harness.connectors self)) as [c|];
    simpl in H; try discriminate H; [|reflexivity].
  injection H as Hp Hl. rewrite (resolve_pin_lists n c c' pin Hp Hl).
  reflexivity.
Qed.

Lemma check_endpoints_lists self self' from_name from_pin to_name to_pin :
  (forall n, connector_lists self' n = connector_lists self n) ->
  check_endpoints self' from_name from_pin to_name to_pin
  = check_endpoints self from_name from_pin to_name to_pin.
Proof.
  intros H. unfold check_endpoints.
  rewrite (check_endpoint_lists self self') by exact H.
  destruct (check_endpoint self _ _ from_name _ _) as [e|ft]; [reflexivity |].
  rewrite !bind_ok. apply check_endpoint_lists. exact H.
Qed.

Lemma resolve_via_wire_lists self self' via_name via_wire :
  cable_lists self' via_name = cable_lists self via_name ->
  resolve_via_wire self' via_name via_wire
  = resolve_via_wire self via_name via_wire.
Proof.
  unfold cable_lists, resolve_via_wire. intros H.
  destruct (dict_get via_name (Harness.cables self')) as [c'|],
           (dict_get via_name (Harness.cables self)) as [c|];
    simpl in H; try discriminate H; [|reflexivity].
  injection H as -> ->. reflexivity.
Qed.

Lemma connect_keeps_lists self from_name from_pin via_name via_wire to_name
    to_pin self' :
  connect self from_name from_pin via_name via_wire to_name to_pin = ok self' ->
  (forall n, connector_lists self' n = connector_lists self n)
  /\ (forall v, cable_lists self' v = cable_lists self v).
Proof.
  intros H.
  destruct (connect_inversion _ _ _ _ _ _ _ _ H) as (f & t & w & _ & _ & Hp).
  destruct (perform_connection_inversion _ _ _ _ _ _ _ _ Hp)
    as (_ & _ & (cable & Hc & Hcables) & _ & _ & Hl & _).
  split; [exact Hl |].
  intros v. unfold cable_lists. rewrite Hcables.
  destruct (decide (via_name = v)) as [<-|Hne].
  - rewrite dict_get_set_eq, Hc. reflexivity.
  - rewrite dict_get_set_ne by exact Hne. reflexivity.
Qed.

(** Property X10: a successful [connect] changes nothing that the resolution of
    references reads: afterwards every pair of endpoints and every wire
    reference is checked and resolved exactly as before. *)
Theorem connect_keeps_resolution self from_name from_pin via_name via_wire
    to_name to_pin self' :
  connect self from_name from_pin via_name via_wire to_name to_pin = ok self' ->
  (forall from_name' from_pin' to_name' to_pin',
     check_endpoints self' from_name' from_pin' to_name' to_pin'
     = check_endpoints self from_name' from_pin' to_name' to_pin')
  /\ (forall via_name' via_wire',
        resolve_via_wire self' via_name' via_wire'
        = resolve_via_wire self via_name' via_wire').
Proof.
  intros H. destruct (connect_keeps_lists _ _ _ _ _ _ _ _ H) as [Hl Hc].
  split.
  - intros. apply check_endpoints_lists. exact Hl.
  - intros. apply resolve_via_wire_lists. apply Hc.
Qed.

Lemma connect_keeps_resolution_witness :
  exists self',
    connect scenario (Some "X1") (PStr "GND") "W1" (PStr "RD")
            (Some "X2") (PInt 1) = ok self'
    /\ resolve_via_wire self' "W1" (PStr "BK")
       = resolve_via_wire scenario "W1" (PStr "BK").
Proof.
  destruct (connect scenario (Some "X1") (PStr "GND") "W1" (PStr "RD")
                    (Some "X2") (PInt 1)) as [e|self'] eqn:E.
  { vm_compute in E. discriminate E. }
  exists self'. split; [reflexivity |].
  apply (connect_keeps_resolution _ _ _ _ _ _ _ _ E).
Defined.

(** Property X11: a [connect] call that succeeded succeeds again with the same
    arguments: the same connection is recorded a second time, so that the
    cable then holds the record twice after the records it had. *)
Theorem connect_twice_accumulates self from_name from_pin via_name via_wire
    to_name to_pin self' :
  connect self from_name from_pin via_name via_wire to_name to_pin = ok self' ->
  exists self'' record,
    connect self' from_name from_pin via_name via_wire to_name to_pin
    = ok self''
    /\ connections self' via_name
       = (connections self via_name ++ [record])%list
    /\ connections self'' via_name
       = (connections self via_name ++ [record; record])%list.
Proof.
  intros H.
  destruct (connect_keeps_lists _ _ _ _ _ _ _ _ H) as [Hl Hc].
  destruct (connect_inversion _ _ _ _ _ _ _ _ H) as (f & t & w & He & Hw & Hp).
  destruct (perform_connection_inversion _ _ _ _ _ _ _ _ Hp)
    as (Hf & Ht & (cable & Hcable & Hcables) & _ & _ & _ & Hkeep).
  assert (Hconn : connections self' via_name
                  = (connections self via_name
                     ++ [mkConnection (endpoint_ref from_name f) w
                                      (endpoint_ref to_name t)])%list).
  { unfold connections. rewrite Hcables, dict_get_set_eq, Hcable.
    reflexivity. }
  assert (Hcable' : exists cable',
             dict_get via_name (Harness.cables self') = Some cable'
             /\ Cable._connections cable' = connections self' via_name).
  { rewrite Hcables, dict_get_set_eq. eexists. split; [reflexivity |].
    unfold connections. rewrite Hcables, dict_get_set_eq. reflexivity. }
  destruct Hcable' as (cable' & Hcable' & Hconn').
  destruct (perform_connection_records self' from_name f via_name w to_name t
              cable' (Hkeep _ _ Hf) (Hkeep _ _ Ht) Hcable')
    as (self'' & Hrun & Hrec).
  exists self'', (mkConnection (endpoint_ref from_name f) w
                               (endpoint_ref to_name t)).
  split; [|split; [exact Hconn |]].
  - unfold connect, connect_with; fold perform_connection.
    rewrite (check_endpoints_lists self self') by exact Hl.
    rewrite He, bind_ok.
    rewrite (resolve_via_wire_lists self self') by apply Hc.
    rewrite Hw, bind_ok. exact Hrun.
  - rewrite Hrec, Hconn', Hconn, <- app_assoc. reflexivity.
Qed.

Lemma connect_twice_accumulates_witness :
  exists self' self'' record,
    connect scenario (Some "X1") (PStr "GND") "W1" (PStr "RD")
            (Some "X2") (PInt 1) = ok self'
    /\ connect self' (Some "X1") (PStr "GND") "W1" (PStr "RD")
               (Some "X2") (PInt 1) = ok self''
    /\ connections self'' "W1" = [record; record].
Proof.
  destruct (connect scenario (Some "X1") (PStr "GND") "W1" (PStr "RD")
                    (Some "X2") (PInt 1)) as [e|self'] eqn:E.
  { vm_compute in E. discriminate E. }
  destruct (connect_twice_accumulates _ _ _ _ _ _ _ _ E)
    as (self'' & record & Hrun & _ & Hrec).
  exists self', self'', record.
  split; [reflexivity |]. split; [exact Hrun | exact Hrec].
Defined.

(** ** Further properties of the BOM aggregation *)

Section BomProperties.
Variable AUTOGENERATED_PREFIX : string.

Lemma _add_to_internal_bom_ignored item (bom : gmap BomHash bom_entry.t) :
  ignore_in_bom item = true ->
  _add_to_internal_bom AUTOGENERATED_PREFIX item bom = ok bom.
Proof. intros H. unfold _add_to_internal_bom. rewrite H. reflexivity. Qed.

(** Property X12: an item flagged [ignore_in_bom] contributes nothing, neither
    itself nor through its additional components, and is not looked at any
    further: whatever its class, its category and its content, aggregating
    it raises nothing and returns the mapping as it was.  Aggregating a
    list of items is therefore aggregating the items of it that are not
    ignored: both give the same mapping, or raise the same exception. *)
Theorem ignored_items_contribute_nothing items
    (bom : gmap BomHash bom_entry.t) :
  for_each (_add_to_internal_bom AUTOGENERATED_PREFIX) items bom
  = for_each (_add_to_internal_bom AUTOGENERATED_PREFIX)
      (filter (fun item => ignore_in_bom item = false) items) bom
  /\ (forall item,
        item ∈ items -> ignore_in_bom item = true ->
        forall bom0 : gmap BomHash bom_entry.t,
          _add_to_internal_bom AUTOGENERATED_PREFIX item bom0 = ok bom0)
  /\ ((forall item, item ∈ items -> ignore_in_bom item = true) ->
      for_each (_add_to_internal_bom AUTOGENERATED_PREFIX) items bom = ok bom).
Proof.
  split; [|split].
  - revert bom. induction items as [|item items IH]; intros bom;
      [reflexivity |].
    rewrite filter_cons. destruct (ignore_in_bom item) eqn:E.
    + rewrite decide_False by discriminate. simpl.
      rewrite _add_to_internal_bom_ignored by exact E. apply IH.
    + rewrite decide_True by reflexivity. simpl.
      destruct (_add_to_internal_bom AUTOGENERATED_PREFIX item bom);
        [reflexivity | apply IH].
  - intros item _ Hign bom0. apply _add_to_internal_bom_ignored. exact Hign.
  - revert bom. induction items as [|item items IH]; intros bom Hall;
      [reflexivity |].
    simpl. rewrite _add_to_internal_bom_ignored by (apply Hall; left).
    apply IH. intros item' Hin. apply Hall. right. exact Hin.
Qed.

Lemma merged_is_Some k calls o :
  is_Some o -> is_Some (merged AUTOGENERATED_PREFIX k calls o).
Proof.
  intros H. destruct (touched k calls) eqn:Ht.
  - rewrite merged_touched by exact Ht. eauto.
  - rewrite merged_untouched by exact Ht. exact H.
Qed.

(** Property X13: aggregation only adds to the mapping: a key present before is
    present afterwards, and the designator set under every key contains
    the set that was there before. *)
Theorem bom_aggregation_only_grows items (bom bom' : gmap BomHash bom_entry.t) :
  for_each (_add_to_internal_bom AUTOGENERATED_PREFIX) items bom = ok bom' ->
  forall k : BomHash,
    (is_Some (bom !! k) -> is_Some (bom' !! k))
    /\ entry_designators (bom !! k) ⊆ entry_designators (bom' !! k).
Proof.
  intros H k. rewrite for_each_calls in H.
  destruct (items_calls items) as [e|calls]; [discriminate H |].
  simpl in H. apply ok_inj in H. subst bom'.
  rewrite add_all_lookup. split.
  - apply merged_is_Some.
  - rewrite merged_designators. apply union_subseteq_l.
Qed.

(** Property X14: [populate_bom] keeps the entries of the mapping complete: when
    every entry holds a quantity, a designator set and a category before the
    call, every entry does so afterwards; the entries it creates are
    complete from the first addition on. *)
Theorem populate_bom_entries_complete (self h : Harness.t) :
  (forall (k : BomHash) e, Harness.bom self !! k = Some e -> entry_complete e) ->
  populate_bom AUTOGENERATED_PREFIX self = ok h ->
  forall (k : BomHash) e, Harness.bom h !! k = Some e -> entry_complete e.
Proof.
  intros Hinv Hrun k e. rewrite populate_bom_calls in Hrun.
  destruct (items_calls (harness_items self)) as [err|calls];
    [discriminate Hrun |].
  simpl in Hrun. apply ok_inj in Hrun. subst h. simpl.
  rewrite add_all_lookup.
  destruct (touched k calls) eqn:Ht.
  - rewrite merged_touched by exact Ht. intros [= <-].
    unfold entry_complete. simpl. eauto.
  - rewrite merged_untouched by exact Ht. apply Hinv.
Qed.

(** Property X15: the category of an entry is the category of the last addition made
    under its hash: whatever was added before, and whatever is added
    afterwards under other hashes, the entry carries the category of that
    addition. *)
Theorem bom_category_is_last_write calls1 c calls2
    (bom : gmap BomHash bom_entry.t) :
  touched (call_hash c) calls2 = false ->
  bom_entry.category
    <$> (add_all AUTOGENERATED_PREFIX (calls1 ++ c :: calls2) bom
         !! call_hash c)
  = Some (Some (call_category c)).
Proof.
  intros Ht. rewrite add_all_app, add_all_cons, add_all_lookup.
  rewrite merged_untouched by exact Ht.
  unfold run_call. rewrite _add_lookup, decide_True by reflexivity.
  reflexivity.
Qed.

(** Property X16: a free-standing additional component that is not ignored adds its
    quantity under its own hash, with the category "additional", and never
    a designator: the designator set under every hash stays as it was. *)
Theorem additional_component_adds_no_designator (a : AdditionalComponent.t)
    (bom : gmap BomHash bom_entry.t) :
  AdditionalComponent.ignore_in_bom a = false ->
  exists bom' : gmap BomHash bom_entry.t,
    _add_to_internal_bom AUTOGENERATED_PREFIX (AnAdditionalComponent a) bom
    = ok bom'
    /\ bom_entry.category <$> (bom' !! AdditionalComponent.bom_hash a)
       = Some (Some (PStr "additional"))
    /\ forall k : BomHash,
         entry_designators (bom' !! k) = entry_designators (bom !! k)
         /\ entry_qty (bom' !! k)
            = (entry_qty (bom !! k)
               + (if decide (AdditionalComponent.bom_hash a = k)
                  then AdditionalComponent.bom_qty a else 0))%Z.
Proof.
  intros Hign. eexists. split.
  - unfold _add_to_internal_bom. simpl. rewrite Hign. reflexivity.
  - split.
    + rewrite _add_lookup, decide_True by reflexivity. reflexivity.
    + intros k. rewrite _add_lookup.
      destruct (decide (AdditionalComponent.bom_hash a = k)) as [->|Hne].
      * unfold _add_entry.
        rewrite entry_qty_default, entry_designators_default.
        rewrite entry_qty_Some, entry_designators_Some. simpl.
        split; [set_solver | reflexivity].
      * split; [reflexivity | lia].
Qed.




(** Property X18: registering one more additional BOM item and populating is
    populating first and then adding that item: the additional items are
    visited last, in the order of their registration. *)
Theorem populate_bom_after_add_additional_bom_item (self : Harness.t)
    (a : AdditionalComponent.t) :
  populate_bom AUTOGENERATED_PREFIX (add_additional_bom_item self a)
  = (h ← populate_bom AUTOGENERATED_PREFIX self;
     bom ← _add_to_internal_bom AUTOGENERATED_PREFIX (AnAdditionalComponent a)
             (Harness.bom h);
     ok (Harness.set_bom (add_additional_bom_item self a) bom)).
Proof.
  unfold populate_bom, add_additional_bom_item. simpl.
  destruct (for_each _ (AConnector <$> _) _) as [e|b1]; [reflexivity |].
  rewrite !bind_ok.
  destruct (for_each _ (ACable <$> _) _) as [e|b2]; [reflexivity |].
  rewrite !bind_ok. rewrite fmap_app, for_each_app.
  destruct (for_each _ (AnAdditionalComponent <$> _) _) as [e|b3];
    [reflexivity |].
  rewrite !bind_ok. simpl.
  destruct (_add_to_internal_bom _ _ _); reflexivity.
Qed.
End BomProperties.

Lemma bom_aggregation_only_grows_witness :
  exists bom' : gmap BomHash bom_entry.t,
    for_each (_add_to_internal_bom example_AUTOGENERATED_PREFIX)
      [AConnector X1; ACable B1] ∅ = ok bom'
    /\ forall k : BomHash,
         (is_Some ((∅ : gmap BomHash bom_entry.t) !! k) -> is_Some (bom' !! k))
         /\ entry_designators ((∅ : gmap BomHash bom_entry.t) !! k)
            ⊆ entry_designators (bom' !! k).
Proof.
  destruct (for_each (_add_to_internal_bom example_AUTOGENERATED_PREFIX)
              [AConnector X1; ACable B1] ∅) as [e|bom'] eqn:E.
  { vm_compute in E. discriminate E. }
  exists bom'. split; [reflexivity |].
  exact (bom_aggregation_only_grows example_AUTOGENERATED_PREFIX _ _ _ E).
Defined.

Lemma populate_bom_entries_complete_witness :
  exists h,
    populate_bom example_AUTOGENERATED_PREFIX scenario = ok h
    /\ forall (k : BomHash) e, Harness.bom h !! k = Some e -> entry_complete e.
Proof.
  destruct (populate_bom example_AUTOGENERATED_PREFIX scenario)
    as [err|h] eqn:E.
  { vm_compute in E. discriminate E. }
  exists h. split; [reflexivity |].
  apply (populate_bom_entries_complete example_AUTOGENERATED_PREFIX scenario h);
    [|exact E].
  intros k e H. change (Harness.bom scenario) with (∅ : gmap BomHash bom_entry.t) in H.
  rewrite lookup_empty in H. discriminate H.
Defined.

Lemma bom_category_is_last_write_witness :
  bom_entry.category
    <$> (add_all example_AUTOGENERATED_PREFIX
           [mkAddCall "part" 1%Z (DOne "X1") (PStr "connector");
            mkAddCall "part" 2%Z DNone (PStr "additional");
            mkAddCall "other" 1%Z (DOne "W1") (PStr "cable")] ∅
         !! "part")
  = Some (Some (PStr "additional")).
Proof.
  exact (bom_category_is_last_write example_AUTOGENERATED_PREFIX
           [mkAddCall "part" 1%Z (DOne "X1") (PStr "connector")]
           (mkAddCall "part" 2%Z DNone (PStr "additional"))
           [mkAddCall "other" 1%Z (DOne "W1") (PStr "cable")] ∅ eq_refl).
Defined.

Lemma additional_component_adds_no_designator_witness :
  exists bom' : gmap BomHash bom_entry.t,
    _add_to_internal_bom example_AUTOGENERATED_PREFIX
      (AnAdditionalComponent (AdditionalComponent.mk false "label" 3%Z)) ∅
    = ok bom'
    /\ bom_entry.category <$> (bom' !! "label")
       = Some (Some (PStr "additional")).
Proof.
  destruct (additional_component_adds_no_designator
              example_AUTOGENERATED_PREFIX
              (AdditionalComponent.mk false "label" 3%Z) ∅ eq_refl)
    as (bom' & Hrun & Hcat & _).
  exists bom'. split; [exact Hrun | exact Hcat].
Defined.

Lemma ignored_items_contribute_nothing_witness :
  for_each (_add_to_internal_bom example_AUTOGENERATED_PREFIX)
    [OtherComponent true "widget"; AConnector X1] ∅
  = for_each (_add_to_internal_bom example_AUTOGENERATED_PREFIX)
      [AConnector X1] ∅
  /\ for_each (_add_to_internal_bom example_AUTOGENERATED_PREFIX)
       [OtherComponent true "widget"; ACable (Cable.mk "W9" (PStr "bundle")
                                               true "cable-z" 1%Z [] [] [] [] [])]
       ∅
     = ok ∅.
Proof.
  split.
  - exact (proj1 (ignored_items_contribute_nothing
                    example_AUTOGENERATED_PREFIX
                    [OtherComponent true "widget"; AConnector X1] ∅)).
  - apply (proj2 (proj2 (ignored_items_contribute_nothing
                           example_AUTOGENERATED_PREFIX _ ∅))).
    intros item Hin.
    repeat (apply elem_of_cons in Hin as [->|Hin]; [reflexivity |]).
    inversion Hin.
Defined.


(** ** Registration of connectors and cables *)

Section DictSetFacts.
Context {K V : Type} `{EqDecision K}.
Implicit Types (d : dict K V) (k : K) (v : V).

Lemma dict_set_present k v d :
  is_Some (dict_get k d) -> (dict_set k v d).*1 = d.*1.
Proof.
  induction d as [|[k' v'] d IH]; simpl.
  - intros [x Hx]. discriminate Hx.
  - destruct (decide (k' = k)) as [->|Hne]; [reflexivity |].
    intros H. rewrite !fmap_cons. f_equal. exact (IH H).
Qed.

Lemma dict_set_absent k v d :
  dict_get k d = None -> dict_set k v d = (d ++ [(k, v)])%list.
Proof.
  induction d as [|[k' v'] d IH]; simpl; [reflexivity |].
  destruct (decide (k' = k)); [discriminate |].
  intros H. rewrite (IH H). reflexivity.
Qed.
End DictSetFacts.

(** Property X19: registering a connector or a cable makes it the component found
    under its designator and leaves every other designator as it was.  A
    designator registered before is overwritten in place (the last
    registration wins, the order of the designators is kept and no
    designator appears twice); a new designator is appended after the
    others.  Nothing else of the harness changes. *)
Theorem registration_last_write_wins (self : Harness.t) :
  (forall conn : Connector.t,
     let self' := add_connector self conn in
     let name := Connector.designator conn in
     dict_get name (Harness.connectors self') = Some conn
     /\ (forall other, other ≠ name ->
           dict_get other (Harness.connectors self')
           = dict_get other (Harness.connectors self))
     /\ (is_Some (dict_get name (Harness.connectors self)) ->
         (Harness.connectors self').*1 = (Harness.connectors self).*1)
     /\ (dict_get name (Harness.connectors self) = None ->
         Harness.connectors self'
         = (Harness.connectors self ++ [(name, conn)])%list)
     /\ Harness.cables self' = Harness.cables self
     /\ Harness.mates self' = Harness.mates self
     /\ Harness.bom self' = Harness.bom self)
  /\ (forall cbl : Cable.t,
        let self' := add_cable self cbl in
        let name := Cable.designator cbl in
        dict_get name (Harness.cables self') = Some cbl
        /\ (forall other, other ≠ name ->
              dict_get other (Harness.cables self')
              = dict_get other (Harness.cables self))
        /\ (is_Some (dict_get name (Harness.cables self)) ->
            (Harness.cables self').*1 = (Harness.cables self).*1)
        /\ (dict_get name (Harness.cables self) = None ->
            Harness.cables self'
            = (Harness.cables self ++ [(name, cbl)])%list)
        /\ Harness.connectors self' = Harness.connectors self
        /\ Harness.mates self' = Harness.mates self
        /\ Harness.bom self' = Harness.bom self).
Proof.
  split; intros x self' name; subst self' name; simpl;
    (split; [apply dict_get_set_eq |]);
    (split; [intros other Hne; apply dict_get_set_ne; congruence |]);
    (split; [apply dict_set_present |]);
    (split; [apply dict_set_absent |]);
    repeat split.
Qed.

(** ** Mates *)

Section MateProperties.
Variable parse_arrow_str : string -> Result ArrowDirection.

(** Property X20: the first failing step decides the exception of [add_mate_pin]: a
    source connector that is not registered raises [KeyError] with its
    name; with the source pin found, a destination connector that is not
    registered raises [KeyError] with its name; with both pins found, an
    arrow that does not parse raises the exception of the parser.  (A pin
    that is no key of [pin_objects] is the case of claim C1.) *)
Theorem add_mate_pin_errors self from_name from_pin to_name to_pin arrow_str :
  (dict_get from_name (Harness.connectors self) = None ->
   add_mate_pin parse_arrow_str self from_name from_pin to_name to_pin
     arrow_str = raise (KeyError (PStr from_name)))
  /\ (is_Some (pin_obj self from_name from_pin) ->
      dict_get to_name (Harness.connectors self) = None ->
      add_mate_pin parse_arrow_str self from_name from_pin to_name to_pin
        arrow_str = raise (KeyError (PStr to_name)))
  /\ (forall e,
        is_Some (pin_obj self from_name from_pin) ->
        is_Some (pin_obj self to_name to_pin) ->
        parse_arrow_str arrow_str = raise e ->
        add_mate_pin parse_arrow_str self from_name from_pin to_name to_pin
          arrow_str = raise e).
Proof.
  split; [|split].
  - intros H. unfold add_mate_pin, getitem_str. rewrite H. reflexivity.
  - intros [p Hp] H.
    destruct (pin_obj_Some _ _ _ _ Hp) as (c & Hc & Hpo).
    unfold add_mate_pin, getitem_str, getitem.
    rewrite Hc, bind_ok, Hpo, bind_ok, H. reflexivity.
  - intros e [p Hp] [q Hq] He.
    destruct (pin_obj_Some _ _ _ _ Hp) as (c & Hc & Hpo).
    destruct (pin_obj_Some _ _ _ _ Hq) as (c' & Hc' & Hqo).
    unfold add_mate_pin, getitem_str, getitem.
    rewrite Hc, bind_ok, Hpo, bind_ok, Hc', bind_ok, Hqo, bind_ok, He.
    reflexivity.
Qed.

(** Property X21: a successful [add_mate_pin] leaves the cables with their
    connection lists and the BOM mapping as they were, and changes nothing
    that the resolution of references reads: every later [connect] checks
    its endpoints and its wire as it would have before the mate. *)
Theorem add_mate_pin_keeps_resolution self from_name from_pin to_name to_pin
    arrow_str self' :
  add_mate_pin parse_arrow_str self from_name from_pin to_name to_pin
    arrow_str = ok self' ->
  Harness.cables self' = Harness.cables self
  /\ Harness.bom self' = Harness.bom self
  /\ (forall from_name' from_pin' to_name' to_pin',
        check_endpoints self' from_name' from_pin' to_name' to_pin'
        = check_endpoints self from_name' from_pin' to_name' to_pin')
  /\ (forall via_name via_wire,
        resolve_via_wire self' via_name via_wire
        = resolve_via_wire self via_name via_wire).
Proof.
  unfold add_mate_pin. intros H.
  destruct (getitem_str from_name _) as [e|fc]; [discriminate H |].
  rewrite bind_ok in H.
  destruct (getitem from_pin _) as [e|fo]; [discriminate H |].
  rewrite bind_ok in H.
  destruct (getitem_str to_name _) as [e|tc]; [discriminate H |].
  rewrite bind_ok in H.
  destruct (getitem to_pin _) as [e|too]; [discriminate H |].
  rewrite bind_ok in H.
  destruct (parse_arrow_str arrow_str) as [e|dir]; [discriminate H |].
  rewrite bind_ok in H. cbv zeta in H.
  set (self1 := Harness.set_mates self _) in H.
  destruct (activate_pin_of self1 from_name from_pin RIGHT false)
    as [e|self2] eqn:E2; [discriminate H |].
  rewrite bind_ok in H.
  destruct (activate_pin_of_inversion _ _ _ _ _ _ E2)
    as (Hc2 & _ & Hb2 & Hl2 & _).
  destruct (activate_pin_of_inversion _ _ _ _ _ _ H)
    as (Hc3 & _ & Hb3 & Hl3 & _).
  assert (Hcables : Harness.cables self' = Harness.cables self)
    by (rewrite Hc3, Hc2; reflexivity).
  split; [exact Hcables |].
  split; [rewrite Hb3, Hb2; reflexivity |].
  split.
  - intros. apply check_endpoints_lists.
    intros n. rewrite Hl3, Hl2. reflexivity.
  - intros. apply resolve_via_wire_lists.
    unfold cable_lists. rewrite Hcables. reflexivity.
Qed.

(** Property X22: [add_mate_component] validates nothing: whether or not the two
    designators are registered, it succeeds exactly when the arrow parses,
    never raises [KeyError], appends one component-level mate with a single
    arrow, and leaves connectors (so every pin activation), cables and BOM
    as they were. *)
Theorem add_mate_component_validates_nothing self from_name to_name arrow_str :
  ((exists self',
      add_mate_component parse_arrow_str self from_name to_name arrow_str
      = ok self')
   <-> (exists dir, parse_arrow_str arrow_str = ok dir))
  /\ (forall key,
        add_mate_component parse_arrow_str self from_name to_name arrow_str
        = raise (KeyError key) ->
        parse_arrow_str arrow_str = raise (KeyError key))
  /\ (forall self',
        add_mate_component parse_arrow_str self from_name to_name arrow_str
        = ok self' ->
        exists dir,
          parse_arrow_str arrow_str = ok dir
          /\ Harness.mates self'
             = (Harness.mates self
                ++ [MateComponent from_name to_name (mkArrow dir SINGLE)])%list
          /\ Harness.connectors self' = Harness.connectors self
          /\ Harness.cables self' = Harness.cables self
          /\ Harness.bom self' = Harness.bom self).
Proof.
  unfold add_mate_component.
  destruct (parse_arrow_str arrow_str) as [e|dir]; simpl.
  - split; [split; intros [x Hx]; discriminate Hx |].
    split; [intros key H; injection H as ->; reflexivity
           | intros self' H; discriminate H].
  - split; [split; eauto |].
    split; [intros key H; discriminate H |].
    intros self' H. apply ok_inj in H. subst self'.
    exists dir. repeat split.
Qed.
End MateProperties.

Lemma add_mate_pin_errors_witness :
  add_mate_pin example_parse_arrow_str scenario "X9" (PInt 1) "X2" (PInt 1)
    "->" = raise (KeyError (PStr "X9"))
  /\ add_mate_pin example_parse_arrow_str scenario "X1" (PInt 1) "X9" (PInt 1)
       "->" = raise (KeyError (PStr "X9"))
  /\ add_mate_pin example_parse_arrow_str scenario "X1" (PInt 1) "X2" (PInt 1)
       "=>" = raise ValueError.
Proof.
  split; [|split].
  - apply (proj1 (add_mate_pin_errors example_parse_arrow_str scenario
                    "X9" (PInt 1) "X2" (PInt 1) "->")).
    reflexivity.
  - apply (proj1 (proj2 (add_mate_pin_errors example_parse_arrow_str scenario
                           "X1" (PInt 1) "X9" (PInt 1) "->")));
      [vm_compute; eauto | reflexivity].
  - apply (proj2 (proj2 (add_mate_pin_errors example_parse_arrow_str scenario
                           "X1" (PInt 1) "X2" (PInt 1) "=>")));
      [vm_compute; eauto | vm_compute; eauto | reflexivity].
Defined.

Lemma add_mate_pin_keeps_resolution_witness :
  exists self',
    add_mate_pin example_parse_arrow_str scenario "X1" (PInt 1) "X2" (PInt 1)
      "->" = ok self'
    /\ Harness.cables self' = Harness.cables scenario
    /\ Harness.bom self' = Harness.bom scenario.
Proof.
  destruct (add_mate_pin example_parse_arrow_str scenario "X1" (PInt 1)
              "X2" (PInt 1) "->") as [e|self'] eqn:E.
  { vm_compute in E. discriminate E. }
  exists self'. split; [reflexivity |].
  destruct (add_mate_pin_keeps_resolution _ _ _ _ _ _ _ _ E)
    as (Hc & Hb & _).
  split; [exact Hc | exact Hb].
Defined.

(** ** Output *)

Lemma str_in_elem_of f fmt : str_in f fmt = true <-> f ∈ fmt.
Proof.
  unfold str_in. rewrite existsb_exists. split.
  - intros (x & Hin & Heq). apply String.eqb_eq in Heq. subst x.
    apply list_elem_of_In. exact Hin.
  - intros H. exists f. split; [apply list_elem_of_In; exact H |].
    apply String.eqb_refl.
Qed.


Lemma elem_of_optional {A} (b : bool) (x a : A) :
  a ∈ (if b then [x] else []) <-> b = true /\ a = x.
Proof.
  destruct b.
  - rewrite list_elem_of_singleton. tauto.
  - split; [intros H; inversion H | intros [H _]; discriminate H].
Qed.

Lemma elem_of_renders filename view cleanup fmt a :
  a ∈ flat_map (render_format filename view cleanup) fmt <->
  exists f, f ∈ fmt /\ a ∈ render_format filename view cleanup f.
Proof.
  rewrite list_elem_of_In, in_flat_map. split.
  - intros (f & Hf & Ha). exists f.
    split; apply list_elem_of_In; assumption.
  - intros (f & Hf & Ha). exists f.
    split; apply list_elem_of_In; assumption.
Qed.

Lemma render_format_cases filename view cleanup f :
  (f = "png"
   /\ render_format filename view cleanup f
      = [Render "png" filename view cleanup])
  \/ ((f = "svg" \/ f = "html")
      /\ render_format filename view cleanup f
         = [Render "svg" (filename ++ ".tmp") view cleanup])
  \/ ((f ∉ ["png"; "svg"; "html"])
      /\ render_format filename view cleanup f = []).
Proof.
  unfold render_format, str_in. simpl.
  destruct (String.eqb_spec f "png") as [->|Hpng]; [left; auto |].
  destruct (String.eqb_spec f "svg") as [->|Hsvg]; [right; left; auto |].
  destruct (String.eqb_spec f "html") as [->|Hhtml]; [right; left; auto |].
  right; right. split; [|reflexivity].
  rewrite !elem_of_cons, elem_of_nil. tauto.
Qed.

Lemma elem_of_output self filename view cleanup fmt a :
  a ∈ output self filename view cleanup fmt <->
  (exists f, f ∈ fmt /\ a ∈ render_format filename view cleanup f)
  \/ (str_in "svg" fmt || str_in "html" fmt = true
      /\ a = EmbedSvgImagesFile (filename ++ ".tmp.svg"))
  \/ (str_in "gv" fmt = true /\ a = Save (filename ++ ".gv"))
  \/ (str_in "tsv" fmt = true /\ a = WriteTsv (filename ++ ".bom.tsv") [[]])
  \/ (str_in "csv" fmt = true /\ a = Print "CSV output is not yet supported")
  \/ (str_in "html" fmt = true /\ a = GenerateHtmlOutput filename [[]])
  \/ (str_in "pdf" fmt = true /\ a = Print "PDF output is not yet supported")
  \/ (str_in "html" fmt && negb (str_in "svg" fmt) = true
      /\ a = Unlink (filename ++ ".tmp.svg"))
  \/ (str_in "html" fmt && negb (str_in "svg" fmt) = false
      /\ str_in "svg" fmt = true
      /\ a = Replace (filename ++ ".tmp.svg") (filename ++ ".svg")).
Proof.
  unfold output. rewrite !elem_of_app, elem_of_renders, !elem_of_optional.
  destruct (str_in "html" fmt && negb (str_in "svg" fmt)) eqn:E.
  - rewrite list_elem_of_singleton. intuition congruence.
  - rewrite elem_of_optional. intuition congruence.
Qed.

Lemma last_output_cleanup self filename view cleanup fmt x :
  (if str_in "html" fmt && negb (str_in "svg" fmt)
   then [Unlink (filename ++ ".tmp.svg")]
   else if str_in "svg" fmt
        then [Replace (filename ++ ".tmp.svg") (filename ++ ".svg")]
        else []) = [x] ->
  last (output self filename view cleanup fmt) = Some x.
Proof.
  intros H. unfold output. rewrite H, !app_assoc. apply last_snoc.
Qed.

(** Property X23: the temporary file [<filename>.tmp.svg] has a closed life cycle.
    With "svg" among the formats it is embedded and the last action renames
    it to [<filename>.svg]; it is never deleted.  With "html" but not "svg"
    it is embedded and the last action deletes it; it is never renamed.
    With neither, no svg is rendered and the file is neither embedded,
    deleted nor renamed. *)
Theorem output_temporary_svg self filename view cleanup fmt :
  let actions := output self filename view cleanup fmt in
  let tmp := filename ++ ".tmp.svg" in
  (str_in "svg" fmt = true ->
   EmbedSvgImagesFile tmp ∈ actions
   /\ last actions = Some (Replace tmp (filename ++ ".svg"))
   /\ Unlink tmp ∉ actions)
  /\ (str_in "svg" fmt = false -> str_in "html" fmt = true ->
      EmbedSvgImagesFile tmp ∈ actions
      /\ last actions = Some (Unlink tmp)
      /\ forall target, Replace tmp target ∉ actions)
  /\ (str_in "svg" fmt = false -> str_in "html" fmt = false ->
      forall a, a ∈ actions ->
        (forall name v c, a ≠ Render "svg" name v c)
        /\ a ≠ EmbedSvgImagesFile tmp
        /\ a ≠ Unlink tmp
        /\ forall target, a ≠ Replace tmp target).
Proof.
  intros actions tmp. subst actions tmp.
  assert (Hrender : forall a f, a ∈ render_format filename view cleanup f ->
            a = Render "png" filename view cleanup
            \/ ((f = "svg" \/ f = "html")
                /\ a = Render "svg" (filename ++ ".tmp") view cleanup)).
  { intros a f Ha.
    destruct (render_format_cases filename view cleanup f)
      as [[_ E]|[[Hf E]|[_ E]]]; rewrite E in Ha.
    - apply list_elem_of_singleton in Ha. auto.
    - apply list_elem_of_singleton in Ha. auto.
    - inversion Ha. }
  split; [|split].
  - intros Hsvg. split; [|split].
    + apply elem_of_output. right; left. rewrite Hsvg. auto.
    + apply last_output_cleanup. rewrite Hsvg, andb_false_r. reflexivity.
    + rewrite elem_of_output, Hsvg, andb_false_r.
      intros [(f & _ & Ha)|H]; [destruct (Hrender _ _ Ha) as [?|[_ ?]]|];
        intuition congruence.
  - intros Hsvg Hhtml. split; [|split].
    + apply elem_of_output. right; left. rewrite Hsvg, Hhtml. auto.
    + apply last_output_cleanup. rewrite Hsvg, Hhtml. reflexivity.
    + intros target. rewrite elem_of_output, Hsvg, Hhtml.
      intros [(f & _ & Ha)|H]; [destruct (Hrender _ _ Ha) as [?|[_ ?]]|];
        intuition congruence.
  - intros Hsvg Hhtml a. rewrite elem_of_output, Hsvg, Hhtml. simpl.
    intros [(f & Hf & Ha)|H].
    + destruct (Hrender _ _ Ha) as [->|[[->| ->] _]].
      * repeat split; intros; discriminate.
      * apply str_in_elem_of in Hf. congruence.
      * apply str_in_elem_of in Hf. congruence.
    + repeat split; intros; intuition congruence.
Qed.

Lemma output_temporary_svg_witness :
  last (output scenario "harness" false true default_fmt)
  = Some (Replace "harness.tmp.svg" "harness.svg")
  /\ last (output scenario "harness" false true ["html"; "tsv"])
     = Some (Unlink "harness.tmp.svg").
Proof.
  split.
  - apply (proj1 (output_temporary_svg scenario "harness" false true
                    default_fmt)).
    reflexivity.
  - apply (proj1 (proj2 (output_temporary_svg scenario "harness" false true
                           ["html"; "tsv"])));
      reflexivity.
Defined.



(** Property X25: the number of renders is the number of entries of [fmt] that are
    "png", "svg" or "html", counted with repetition: asking for "svg" and
    "html" together renders the svg twice. *)
Theorem output_renders_once_per_entry self filename view cleanup fmt :
  length (filter (fun a => is_render a = true)
                 (output self filename view cleanup fmt))
  = length (filter (fun f => str_in f ["png"; "svg"; "html"] = true) fmt).
Proof.
  unfold output. rewrite !filter_app, !length_app.
  assert (Hopt : forall (b : bool) x,
            is_render x = false ->
            length (filter (fun a => is_render a = true)
                           (if b then [x] else [])) = 0%nat).
  { intros b x Hx. destruct b; [|reflexivity].
    rewrite filter_cons, decide_False by congruence. reflexivity. }
  rewrite !Hopt by reflexivity.
  assert (Hlast : length (filter (fun a => is_render a = true)
            (if str_in "html" fmt && negb (str_in "svg" fmt)
             then [Unlink (filename ++ ".tmp.svg")]
             else if str_in "svg" fmt
                  then [Replace (filename ++ ".tmp.svg") (filename ++ ".svg")]
                  else [])) = 0%nat).
  { destruct (str_in "html" fmt && negb (str_in "svg" fmt));
      [reflexivity | apply Hopt; reflexivity]. }
  rewrite Hlast, !Nat.add_0_r. clear Hlast.
  induction fmt as [|f fmt IH]; [reflexivity |].
  simpl flat_map. rewrite filter_app, length_app, IH, filter_cons.
  destruct (render_format_cases filename view cleanup f)
    as [[-> E]|[[[-> | ->] E]|[Hf E]]]; rewrite E; try reflexivity.
  rewrite decide_False; [reflexivity |].
  intros H. apply str_in_elem_of in H. contradiction.
Qed.



(** ** Registration and component-level mates on examples *)

Lemma registration_last_write_wins_witness :
  let replacement := Connector.make "X1" [PInt 1] [] "connector-z" in
  dict_get "X1" (Harness.connectors (add_connector scenario replacement))
  = Some replacement
  /\ (Harness.connectors (add_connector scenario replacement)).*1
     = (Harness.connectors scenario).*1.
Proof.
  intros replacement.
  destruct (proj1 (registration_last_write_wins scenario) replacement)
    as (Hget & _ & Hkeys & _).
  split; [exact Hget |]. apply Hkeys. vm_compute. eauto.
Defined.

Lemma add_mate_component_validates_nothing_witness :
  exists self',
    add_mate_component example_parse_arrow_str scenario "X8" "X9" "<->"
    = ok self'.
Proof.
  apply (proj1 (add_mate_component_validates_nothing example_parse_arrow_str
                  scenario "X8" "X9" "<->")).
  exists BOTH. reflexivity.
Defined.
